(** * Mendelian-inheritance statistics of scikit-allel ([allel/stats/mendel.py])

    A shallow embedding of [mendel_errors], [paint_transmission] and
    [phase_progeny_by_transmission], and the properties of them that the
    specification states.

    numpy arrays are nested lists together with their shape and dtype;
    integer entries are [Z].  The allele counts of one call are bounded by
    the ploidy, and numpy sums an [int8] array into the platform integer,
    so the counting of [mendel_errors] does not wrap around.  Two
    operations do, and write the wrap-around out: [max_allele + 1] in
    [mendel_errors], a sum in the dtype of the input, and [astype('i1')]
    in the phaser.  Functions that can raise return a [result]; the phaser, which
    writes into an array its caller owns, runs in a state monad over a
    store of arrays. *)

From stdpp Require Import base numbers list gmap strings pretty.

Open Scope Z_scope.

(** ** Exceptions and the error monad *)

Inductive exn :=
  | DiploidOnlyError (msg : string)
  | ValueError (msg : string)
  | IndexError (msg : string).

Inductive result (A : Type) :=
  | Ok (a : A)
  | Raise (e : exn).
Arguments Ok {A} a.
Arguments Raise {A} e.

#[global] Instance result_ret : MRet result := λ A a, Ok a.
#[global] Instance result_bind : MBind result :=
  λ A B f m, match m with Ok a => f a | Raise e => Raise e end.
#[global] Instance result_fmap : FMap result :=
  λ A B f m, match m with Ok a => Ok (f a) | Raise e => Raise e end.

(** Modelled from the spec: [allel.errors.err_diploid_only], which
    [mendel.py] imports and whose body is missing; section 4.1 says that a
    ploidy other than 2 "fails with an operation requires diploid data
    error". *)
Definition err_diploid_only {A} : result A :=
  Raise (DiploidOnlyError "operation requires diploid data").

(** ** Genotype arrays *)

(** A genotype array of shape [(n_variants, n_samples, ploidy)]; a call is
    the list of its alleles. *)
Record GenotypeArray := mkGenotypeArray {
  n_variants : nat;
  n_samples : nat;
  ploidy : nat;
  calls : list (list (list Z))
}.

(** The nested lists have the shape the record announces. *)
Definition well_shaped (g : GenotypeArray) : bool :=
  bool_decide (length (calls g) = n_variants g) &&
  forallb (λ row, bool_decide (length row = n_samples g) &&
                  forallb (λ c, bool_decide (length c = ploidy g)) row)
          (calls g).

Definition call_at (g : GenotypeArray) (i j : nat) : option (list Z) :=
  calls g !! i ≫= (.!! j).

(** Entry [(i, j)] of a two-dimensional array. *)
Definition cell {A} (a : list (list A)) (i j : nat) : option A :=
  a !! i ≫= (.!! j).

(** ** Array objects *)

(** The integer dtypes of numpy. *)
Inductive dtype := int8 | int16 | int32 | int64 | uint8 | uint16 | uint32 | uint64.

#[global] Instance dtype_eq_dec : EqDecision dtype.
Proof. solve_decision. Defined.

Definition dtype_bits (t : dtype) : Z :=
  match t with
  | int8 | uint8 => 8
  | int16 | uint16 => 16
  | int32 | uint32 => 32
  | int64 | uint64 => 64
  end.

Definition dtype_signed (t : dtype) : bool :=
  match t with
  | int8 | int16 | int32 | int64 => true
  | _ => false
  end.

(** The value an integer takes when it is stored with dtype [t]. *)
Definition cast (t : dtype) (z : Z) : Z :=
  let m := 2 ^ dtype_bits t in
  if dtype_signed t then (z + m / 2) `mod` m - m / 2 else z `mod` m.

(** An array object: its dtype and its buffer. *)
Record ndarray := mkArray {
  arr_dtype : dtype;
  arr : GenotypeArray
}.

(** An array object is read through its buffer. *)
Coercion arr : ndarray >-> GenotypeArray.

(** The least and the largest value of a dtype. *)
Definition dtype_min (t : dtype) : Z :=
  if dtype_signed t then - 2 ^ (dtype_bits t - 1) else 0.

Definition dtype_max (t : dtype) : Z :=
  if dtype_signed t then 2 ^ (dtype_bits t - 1) - 1 else 2 ^ dtype_bits t - 1.

(** A numpy scalar: a value with its dtype.  [a.max()] is a scalar of the
    dtype of [a]. *)
Definition scalar : Type := dtype * Z.

(** Python's [max(a, b)]: the first argument, unless the second is
    greater. *)
Definition py_max (a b : scalar) : scalar := if a.2 <? b.2 then b else a.

(** [s + 1] for a numpy scalar [s] and the Python integer 1: the sum is a
    scalar of the dtype of [s] and wraps around in it (the promotion of
    numpy 2; the legacy promotion of numpy 1 adds scalars narrower than 64
    bits in [int64], and wraps for 64-bit scalars only). *)
Definition scalar_succ (s : scalar) : Z := cast s.1 (s.2 + 1).

(** ** numpy operations used by the module *)

Definition sumZ (l : list Z) : Z := foldr Z.add 0 l.

Definition b2z (b : bool) : Z := if b then 1 else 0.

(** [range(n)] *)
Definition py_range (n : Z) : list Z := Z.of_nat <$> seq 0 (Z.to_nat n).

(** [a.max()] over the whole array; numpy raises on an array without
    entries. *)
Definition amax (g : GenotypeArray) : result Z :=
  match concat (concat (calls g)) with
  | [] => Raise (ValueError "zero-size array to reduction operation maximum which has no identity")
  | x :: xs => Ok (foldl Z.max x xs)
  end.

(** [a[:, k]] on an array whose second dimension has size [dim1]. *)
Definition index_axis1 {A} (dim1 : nat) (k : nat) (a : list (list (list A)))
  : result (list (list A)) :=
  if bool_decide (k < dim1)%nat
  then Ok ((λ row : list (list A), default [] (row !! k)) <$> a)
  else Raise (IndexError "index out of bounds for axis 1").

(** [a.sum(axis=1)] for an array of shape [(_, _, n)]. *)
Definition sum_axis1 (n : nat) (a : list (list (list Z))) : list (list Z) :=
  (λ row : list (list Z), foldr (zip_with Z.add) (replicate n 0) row) <$> a.

(** [a[mask] = v] for a mask of the shape of [a]. *)
Definition mask_assign {A} (a : list (list A)) (mask : list (list bool)) (v : A)
  : list (list A) :=
  zip_with (zip_with (λ x (b : bool), if b then v else x)) a mask.

(** [a[mask] = v] for a one-dimensional mask over the rows of [a]. *)
Definition row_mask_assign {A} (a : list (list A)) (mask : list bool) (v : A)
  : list (list A) :=
  zip_with (λ (row : list A) (b : bool), if b then (λ _, v) <$> row else row)
           a mask.

(** ** The genotype container *)

(** Modelled from the spec: [GenotypeArray.to_allele_counts] of the
    container [allel.model.ndarray], which [mendel.py] imports and whose
    body is missing.  Section 3: the allele-count vector of a call gives,
    for each allele of the universe, the number of copies of it in the
    call; a missing allele is in no universe and is counted nowhere. *)
Definition count_allele (a : Z) (call : list Z) : Z :=
  sumZ ((λ x, b2z (x =? a)) <$> call).

Definition allele_counts (alleles : list Z) (call : list Z) : list Z :=
  (λ a, count_allele a call) <$> alleles.

Definition to_allele_counts (alleles : list Z) (g : GenotypeArray)
  : list (list (list Z)) :=
  (λ row : list (list Z), allele_counts alleles <$> row) <$> calls g.

(** Modelled from the spec: [GenotypeArray.is_missing] of the container,
    whose body is missing.  Section 3: "a call is missing iff any of its
    ploidy entries is the sentinel", the sentinel being a negative value. *)
Definition call_is_missing (call : list Z) : bool :=
  existsb (λ a, a <? 0) call.

Definition is_missing (g : GenotypeArray) : list (list bool) :=
  (λ row : list (list Z), call_is_missing <$> row) <$> calls g.

(** ** [mendel_errors] *)

(** Lines 197-199: the counts of progeny alleles that the parents cannot
    supply. *)
Definition base_errors (n_alleles : nat)
    (parent_gc progeny_gc : list (list (list Z))) : list (list Z) :=
  let max_progeny_gc :=
    sum_axis1 n_alleles
      ((λ row : list (list Z), (λ gc : list Z, Z.min 1 <$> gc) <$> row)
       <$> parent_gc) in
  zip_with
    (λ (row : list (list Z)) (avail : list Z),
       (λ gc : list Z, sumZ (Z.max 0 <$> zip_with Z.sub gc avail)) <$> row)
    progeny_gc max_progeny_gc.

(** [np.all(progeny_gc == p_gc, axis=2)], [p_gc] broadcast over the
    progeny. *)
Definition all_equal (progeny_gc : list (list (list Z))) (p_gc : list (list Z))
  : list (list bool) :=
  zip_with (λ (row : list (list Z)) (p : list Z),
              (λ gc : list Z, forallb id (zip_with Z.eqb gc p)) <$> row)
           progeny_gc p_gc.

(** Lines 204-212. *)
Definition uniparental_mask (p1_gc p2_gc : list (list Z))
    (progeny_gc : list (list (list Z))) : list (list bool) :=
  let is_shared_allele :=
    zip_with (zip_with (λ x y, (0 <? x) && (0 <? y))) p1_gc p2_gc in
  let no_shared_alleles :=
    (λ r : list bool, negb (existsb id r)) <$> is_shared_allele in
  zip_with (λ (ns : bool) (row : list bool), andb ns <$> row) no_shared_alleles
    (zip_with (zip_with orb) (all_equal progeny_gc p1_gc)
                             (all_equal progeny_gc p2_gc)).

(** Line 215: the mask of the variants at which a parent call is missing. *)
Definition parent_missing_mask (parent_genotypes : GenotypeArray) : list bool :=
  existsb id <$> is_missing parent_genotypes.

(** The values the local variable [me] takes: after line 199, after line
    212 and after line 215; [tr_alleles] is the local variable [alleles]. *)
Record me_trace := mkTrace {
  tr_alleles : list Z;
  me_base : list (list Z);
  me_uniparental : list (list Z);
  me_final : list (list Z)
}.

Definition mendel_errors_trace (parent_genotypes progeny_genotypes : ndarray)
  : result me_trace :=
  _ ← (if bool_decide (ploidy parent_genotypes ≠ 2%nat) ||
          bool_decide (ploidy progeny_genotypes ≠ 2%nat)
       then err_diploid_only else Ok ());
  parent_max ← amax parent_genotypes;
  progeny_max ← amax progeny_genotypes;
  let max_allele := py_max (arr_dtype parent_genotypes, parent_max)
                           (arr_dtype progeny_genotypes, progeny_max) in
  let alleles := py_range (scalar_succ max_allele) in
  let parent_gc := to_allele_counts alleles parent_genotypes in
  let progeny_gc := to_allele_counts alleles progeny_genotypes in
  let me0 := base_errors (length alleles) parent_gc progeny_gc in
  p1_gc ← index_axis1 (n_samples parent_genotypes) 0 parent_gc;
  p2_gc ← index_axis1 (n_samples parent_genotypes) 1 parent_gc;
  let me1 := mask_assign me0 (uniparental_mask p1_gc p2_gc progeny_gc) 1 in
  let me2 := row_mask_assign me1 (parent_missing_mask parent_genotypes) 0 in
  Ok (mkTrace alleles me0 me1 me2).

Definition mendel_errors (parent_genotypes progeny_genotypes : ndarray)
  : result (list (list Z)) :=
  me_final <$> mendel_errors_trace parent_genotypes progeny_genotypes.

(** ** [paint_transmission] *)

Definition INHERIT_UNDETERMINED : Z := 0.
Definition INHERIT_PARENT1 : Z := 1.
Definition INHERIT_PARENT2 : Z := 2.
Definition INHERIT_NONSEG_REF : Z := 3.
Definition INHERIT_NONSEG_ALT : Z := 4.
Definition INHERIT_NONPARENTAL : Z := 5.
Definition INHERIT_PARENT_MISSING : Z := 6.
Definition INHERIT_MISSING : Z := 7.

(** A haplotype array of shape [(n_variants, n_haplotypes)]. *)
Record HaplotypeArray := mkHaplotypeArray {
  h_n_variants : nat;
  n_haplotypes : nat;
  haplotypes : list (list Z)
}.

Definition h_well_shaped (h : HaplotypeArray) : bool :=
  bool_decide (length (haplotypes h) = h_n_variants h) &&
  forallb (λ row, bool_decide (length row = n_haplotypes h)) (haplotypes h).

(** Modelled from the spec: the call predicates [is_hom_ref], [is_het] and
    [is_hom_alt] of the container [allel.model.ndarray], whose bodies are
    missing.  Sections 4.2 and 6(d): a het call has no missing allele and
    carries different alleles; a hom-ref call carries the reference allele
    0 only; a hom-alt call carries one and the same non-reference
    allele. *)
Definition is_hom_ref (call : list Z) : bool :=
  forallb (λ a, a =? 0) call.

Definition is_het (call : list Z) : bool :=
  forallb (λ a, 0 <=? a) call &&
  existsb (λ a, negb (a =? default 0 (head call))) (tail call).

Definition is_hom_alt (call : list Z) : bool :=
  forallb (λ a, 0 <? a) call &&
  forallb (λ a, a =? default 0 (head call)) (tail call).

(** [a[:, k]] of a two-dimensional array, as a column; the caller has
    checked [k] against the shape. *)
Definition column (k : nat) (a : list (list Z)) : list Z :=
  (λ row : list Z, default 0 (row !! k)) <$> a.

(** [f(a, col[:, np.newaxis])]: the column is broadcast along each row. *)
Definition broadcast_col {A B C} (f : A → B → C)
    (a : list (list A)) (col : list B) : list (list C) :=
  zip_with (λ (row : list A) (p : B), (λ x, f x p) <$> row) a col.

(** [f(a, b)] entry by entry, for arrays of one shape. *)
Definition zip2d {A B C} (f : A → B → C)
    (a : list (list A)) (b : list (list B)) : list (list C) :=
  zip_with (zip_with f) a b.

(** The boolean arrays of lines 289-319. *)
Record paint_masks := mkMasks {
  progeny_is_missing : list (list bool);
  parent_is_missing : list bool;
  inherit_parent1 : list (list bool);
  inherit_parent2 : list (list bool);
  nonseg_ref : list (list bool);
  nonseg_alt : list (list bool);
  nonparental : list (list bool)
}.

Definition transmission_masks (parent_haplotypes progeny_haplotypes : list (list Z))
  : paint_masks :=
  let parent1 := column 0 parent_haplotypes in
  let parent2 := column 1 parent_haplotypes in
  let progeny_is_missing :=
    (λ row : list Z, (λ h, h <? 0) <$> row) <$> progeny_haplotypes in
  let parent_is_missing := existsb (λ h, h <? 0) <$> parent_haplotypes in
  let parent_is_hom_ref := is_hom_ref <$> parent_haplotypes in
  let parent_is_het := is_het <$> parent_haplotypes in
  let parent_is_hom_alt := is_hom_alt <$> parent_haplotypes in
  let is_callable :=
    broadcast_col (λ m pm, negb m && negb pm) progeny_is_missing parent_is_missing in
  let is_callable_seg := broadcast_col andb is_callable parent_is_het in
  let eq_parent1 := broadcast_col Z.eqb progeny_haplotypes parent1 in
  let eq_parent2 := broadcast_col Z.eqb progeny_haplotypes parent2 in
  let ne_parent1 :=
    broadcast_col (λ h p, negb (h =? p)) progeny_haplotypes parent1 in
  let ne_parent2 :=
    broadcast_col (λ h p, negb (h =? p)) progeny_haplotypes parent2 in
  mkMasks progeny_is_missing parent_is_missing
    (zip2d andb is_callable_seg eq_parent1)
    (zip2d andb is_callable_seg eq_parent2)
    (zip2d andb (broadcast_col andb is_callable parent_is_hom_ref) eq_parent1)
    (zip2d andb (broadcast_col andb is_callable parent_is_hom_alt) eq_parent1)
    (zip2d andb (zip2d andb is_callable ne_parent1) ne_parent2).

Definition paint_transmission (parent_haplotypes progeny_haplotypes : HaplotypeArray)
  : result (list (list Z)) :=
  _ ← (if bool_decide (n_haplotypes parent_haplotypes ≠ 2%nat)
       then Raise (ValueError "exactly two parental haplotypes should be provided")
       else Ok ());
  let m := transmission_masks (haplotypes parent_haplotypes)
                              (haplotypes progeny_haplotypes) in
  let painting :=
    (λ row : list Z, (λ _, INHERIT_UNDETERMINED) <$> row)
    <$> haplotypes progeny_haplotypes in
  let painting := mask_assign painting (inherit_parent1 m) INHERIT_PARENT1 in
  let painting := mask_assign painting (inherit_parent2 m) INHERIT_PARENT2 in
  let painting := mask_assign painting (nonseg_ref m) INHERIT_NONSEG_REF in
  let painting := mask_assign painting (nonseg_alt m) INHERIT_NONSEG_ALT in
  let painting := mask_assign painting (nonparental m) INHERIT_NONPARENTAL in
  let painting := row_mask_assign painting (parent_is_missing m) INHERIT_PARENT_MISSING in
  let painting := mask_assign painting (progeny_is_missing m) INHERIT_MISSING in
  Ok painting.

(** ** [phase_progeny_by_transmission] *)

Abbreviation loc := positive (only parsing).

(** The arrays that exist, by reference. *)
Abbreviation store := (gmap positive ndarray) (only parsing).

(** Computations that read and write the store and can raise; what was
    written before an exception stays written. *)
Definition M (A : Type) : Type := store → result A * store.

#[global] Instance M_ret : MRet M := λ A a σ, (Ok a, σ).
#[global] Instance M_bind : MBind M :=
  λ A B f m σ,
    match m σ with
    | (Ok a, σ') => f a σ'
    | (Raise e, σ') => (Raise e, σ')
    end.

(** A computation that leaves the store alone. *)
Definition lift {A} (r : result A) : M A := λ σ, (r, σ).

Definition raise {A} (e : exn) : M A := lift (Raise e).

(** Dereference; a reference held by the caller is never dangling. *)
Definition read (l : loc) : M ndarray :=
  λ σ, match σ !! l with
       | Some a => (Ok a, σ)
       | None => (Raise (ValueError "dangling reference"), σ)
       end.

Definition write (l : loc) (a : ndarray) : M () :=
  λ σ, (Ok (), <[l := a]> σ).

(** A new array object. *)
Definition alloc (a : ndarray) : M loc :=
  λ σ, let l := fresh (dom σ) in (Ok l, <[l := a]> σ).

Definition map_calls (f : Z → Z) (g : GenotypeArray) : GenotypeArray :=
  mkGenotypeArray (n_variants g) (n_samples g) (ploidy g)
    ((λ row : list (list Z), (λ c : list Z, f <$> c) <$> row) <$> calls g).

(** [g.copy()] *)
Definition ndarray_copy (g : loc) : M loc :=
  a ← read g; alloc a.

(** [g.astype(t, copy=False)]: the array itself when it has the dtype
    already, a new array of the converted entries otherwise. *)
Definition astype (t : dtype) (g : loc) : M loc :=
  a ← read g;
  if decide (arr_dtype a = t) then mret g
  else alloc (mkArray t (map_calls (cast t) (arr a))).

Section Phaser.

(** The Cython routine [allel.opt.stats.phase_progeny_by_transmission_int8]
    is imported and its body is missing.  It receives the [int8] buffer of
    [g], rewrites entries of that buffer and returns a new [uint8] array;
    [phase_buffer] is what it computes from the entries of the buffer: the
    entries it leaves in the buffer, and the array it returns. *)
Variable phase_buffer :
  list (list (list Z)) → list (list (list Z)) * list (list Z).

Definition phase_progeny_by_transmission_int8 (g : loc) : M (list (list Z)) :=
  a ← read g;
  let '(phased, is_phased) := phase_buffer (calls (arr a)) in
  _ ← write g (mkArray (arr_dtype a)
                 (mkGenotypeArray (n_variants (arr a)) (n_samples (arr a))
                                  (ploidy (arr a)) phased));
  mret is_phased.

(** [np.asarray(is_phased).view('b1')] *)
Definition view_bool (a : list (list Z)) : list (list bool) :=
  (λ row : list Z, (λ x, negb (x =? 0)) <$> row) <$> a.

(** [g] refers to the array of the caller; [GenotypeArray(g)] is a view of
    the same buffer, so the checks read the array behind [g], and what is
    written through the view is written to it. *)
Definition phase_progeny_by_transmission (g : loc) (copy : bool)
  : M (loc * list (list bool)) :=
  a ← read g;
  _ ← (if bool_decide (ploidy (arr a) ≠ 2%nat)
       then lift err_diploid_only else mret ());
  _ ← (if bool_decide (n_samples (arr a) < 3)%nat
       then raise (ValueError
              ("bad genotypes: at least three samples required (2 parents and 1 or more progeny); found "
               +:+ pretty (n_samples (arr a))))
       else mret ());
  g ← (if copy then ndarray_copy g else mret g);
  g ← astype int8 g;
  is_phased ← phase_progeny_by_transmission_int8 g;
  mret (g, view_bool is_phased).

End Phaser.

(** Modelled from the spec: what the Cython routine
    [phase_progeny_by_transmission_int8], whose body is missing, computes,
    after section 4.3 and the design note of section 9.  The candidate
    assignments of the two progeny alleles to (parent 1, parent 2) are the
    two orders of the call (one order when the alleles are equal); an
    assignment is consistent when parent 1 carries its first allele and
    parent 2 its second.  A call is phased, and rewritten in the order of
    the assignment, when exactly one candidate is consistent; a call is left
    as it is when a genotype of the trio has a missing allele, when no
    candidate is consistent and when both are. *)
Definition consistent (p1 p2 : list Z) (xy : Z * Z) : bool :=
  bool_decide (xy.1 ∈ p1) && bool_decide (xy.2 ∈ p2).

Definition phase_call (p1 p2 call : list Z) : list Z * Z :=
  match call with
  | [a1; a2] =>
      if call_is_missing p1 || call_is_missing p2 || call_is_missing call
      then (call, 0)
      else
        let candidates :=
          if a1 =? a2 then [(a1, a2)] else [(a1, a2); (a2, a1)] in
        match List.filter (consistent p1 p2) candidates with
        | [(x, y)] => ([x; y], 1)
        | _ => (call, 0)
        end
  | _ => (call, 0)
  end.

(** One variant: the parents are samples 0 and 1 and stay as they are, and
    their flags stay 0. *)
Definition phase_variant (row : list (list Z)) : list (list Z) * list Z :=
  match row with
  | p1 :: p2 :: progeny =>
      let r := phase_call p1 p2 <$> progeny in
      (p1 :: p2 :: (fst <$> r), 0 :: 0 :: (snd <$> r))
  | _ => (row, (λ _, 0) <$> row)
  end.

Definition phase_buffer_spec (buf : list (list (list Z)))
  : list (list (list Z)) * list (list Z) :=
  let r := phase_variant <$> buf in (fst <$> r, snd <$> r).

(** ** The detector in the words of the specification, one cell at a time *)

(** Section 4.1, step 2: each parent's allele count clipped to at most 1,
    summed across the two parents. *)
Definition spec_availability (alleles p1 p2 : list Z) : list Z :=
  (λ a, Z.min 1 (count_allele a p1) + Z.min 1 (count_allele a p2)) <$> alleles.

(** Step 3: the availability vector subtracted from the allele counts of
    the progeny call, negative entries clipped to 0, summed. *)
Definition spec_base_count (alleles p1 p2 c : list Z) : Z :=
  sumZ (Z.max 0 <$> zip_with Z.sub (allele_counts alleles c)
                                   (spec_availability alleles p1 p2)).

(** Step 4: the parents share no allele, and the progeny call has the
    allele counts of one of them. *)
Definition spec_share_no_allele (alleles p1 p2 : list Z) : bool :=
  negb (existsb (λ a, (0 <? count_allele a p1) && (0 <? count_allele a p2))
                alleles).

Definition spec_uniparental (alleles p1 p2 c : list Z) : bool :=
  spec_share_no_allele alleles p1 p2 &&
  (bool_decide (allele_counts alleles c = allele_counts alleles p1) ||
   bool_decide (allele_counts alleles c = allele_counts alleles p2)).

(** Steps 3 to 5 in their order of precedence. *)
Definition spec_mendel_error (alleles p1 p2 c : list Z) : Z :=
  if call_is_missing p1 || call_is_missing p2 then 0
  else if spec_uniparental alleles p1 p2 c then 1
  else spec_base_count alleles p1 p2 c.

(** The inputs the docstring of [mendel_errors] describes: parents of
    shape [(n_variants, 2, 2)] and progeny of shape
    [(n_variants, n_progeny, 2)].  The properties below are about these
    inputs; what numpy does with arrays whose first dimensions differ
    (broadcast or raise) is not reproduced by the lists. *)
Definition trio_arrays (parents progeny : GenotypeArray) : bool :=
  well_shaped parents && well_shaped progeny &&
  bool_decide (ploidy parents = 2%nat) && bool_decide (ploidy progeny = 2%nat) &&
  bool_decide (n_samples parents = 2%nat) &&
  bool_decide (n_variants parents = n_variants progeny).

(** ** The painter in the words of the specification, one cell at a time *)

(** Section 4.2: the states in their order of priority, the highest
    first.  [a1] and [a2] are the two parental haplotypes at the variant
    and [h] is the progeny allele. *)
Definition spec_paint_state (a1 a2 h : Z) : Z :=
  let callable := negb (h <? 0) && negb ((a1 <? 0) || (a2 <? 0)) in
  if h <? 0 then INHERIT_MISSING
  else if (a1 <? 0) || (a2 <? 0) then INHERIT_PARENT_MISSING
  else if callable && negb (h =? a1) && negb (h =? a2) then INHERIT_NONPARENTAL
  else if callable && is_hom_alt [a1; a2] && (h =? a1) then INHERIT_NONSEG_ALT
  else if callable && is_hom_ref [a1; a2] && (h =? a1) then INHERIT_NONSEG_REF
  else if callable && is_het [a1; a2] && (h =? a2) then INHERIT_PARENT2
  else if callable && is_het [a1; a2] && (h =? a1) then INHERIT_PARENT1
  else INHERIT_UNDETERMINED.

(** The inputs the docstring of [paint_transmission] describes: parental
    haplotypes of shape [(n_variants, 2)] and progeny haplotypes of shape
    [(n_variants, n_progeny)], with the same proviso. *)
Definition haplotype_arrays (parents progeny : HaplotypeArray) : bool :=
  h_well_shaped parents && h_well_shaped progeny &&
  bool_decide (n_haplotypes parents = 2%nat) &&
  bool_decide (h_n_variants parents = h_n_variants progeny).

(** ** The array the phaser works on *)

(** What [g.astype('i1', copy=False)] holds: the array itself when its
    dtype is [int8], its entries converted to [int8] otherwise. *)
Definition as_int8 (a : ndarray) : ndarray :=
  if decide (arr_dtype a = int8) then a
  else mkArray int8 (map_calls (cast int8) (arr a)).

(** The array after the Cython routine has rewritten its buffer. *)
Definition phased_array
    (phase_buffer : list (list (list Z)) → list (list (list Z)) * list (list Z))
    (a : ndarray) : ndarray :=
  mkArray (arr_dtype a)
    (mkGenotypeArray (n_variants (arr a)) (n_samples (arr a)) (ploidy (arr a))
                     (phase_buffer (calls (arr a))).1).

(** ** Arrays on which the allele universe does not overflow *)

(** Every entry of the array is a value of its dtype, and none is the
    largest value of the dtype: then [max_allele + 1] (line 190) is the
    integer it looks like. *)
Definition alleles_below_dtype_max (g : ndarray) : bool :=
  forallb (forallb (forallb (λ z, (dtype_min (arr_dtype g) <=? z)
                                  && (z <? dtype_max (arr_dtype g)))))
          (calls g).

(** [m] is the largest entry of the two arrays. *)
Definition is_max_allele (parents progeny : GenotypeArray) (m : Z) : Prop :=
  (∃ g i j c, (g = parents ∨ g = progeny) ∧ call_at g i j = Some c ∧ m ∈ c) ∧
  (∀ g i j c a, g = parents ∨ g = progeny →
                call_at g i j = Some c → a ∈ c → a ≤ m).

(** ** Allele universes *)

(** What the list [alleles] of [mendel_errors] is for the three calls of a
    cell: it has no allele twice, no negative allele, and every
    non-missing allele of the calls. *)
Definition universe_of (U p1 p2 c : list Z) : Prop :=
  NoDup U ∧ (∀ a, a ∈ U → 0 ≤ a) ∧
  (∀ a, 0 ≤ a → a ∈ p1 ∨ a ∈ p2 ∨ a ∈ c → a ∈ U).

(** ** Rearrangements of the inputs *)

(** [g[:, ::-1]]: the samples of every variant in the opposite order; on
    an array of two parents, the parents exchanged. *)
Definition swap_samples (g : ndarray) : ndarray :=
  mkArray (arr_dtype g)
    (mkGenotypeArray (n_variants g) (n_samples g) (ploidy g)
                     (reverse <$> calls g)).

(** [g[:, :, ::-1]]: the alleles of every call in the opposite order. *)
Definition swap_alleles (g : ndarray) : ndarray :=
  mkArray (arr_dtype g)
    (mkGenotypeArray (n_variants g) (n_samples g) (ploidy g)
                     ((λ row : list (list Z), reverse <$> row) <$> calls g)).

(** [h[:, ::-1]]: the two parental haplotypes exchanged. *)
Definition swap_haplotypes (h : HaplotypeArray) : HaplotypeArray :=
  mkHaplotypeArray (h_n_variants h) (n_haplotypes h) (reverse <$> haplotypes h).

(** The painting codes with [INHERIT_PARENT1] and [INHERIT_PARENT2]
    exchanged. *)
Definition exchange_parent_codes (v : Z) : Z :=
  if v =? INHERIT_PARENT1 then INHERIT_PARENT2
  else if v =? INHERIT_PARENT2 then INHERIT_PARENT1
  else v.

(** Every entry fits [int8]. *)
Definition in_int8_range (g : GenotypeArray) : bool :=
  forallb (forallb (forallb (λ z, (-128 <=? z) && (z <=? 127)))) (calls g).

(** ** The data of the doctests *)

(** [GenotypeArray(data)] for a nested list: numpy reads the shape off the
    first entries. *)
Definition genotype_array (data : list (list (list Z))) : GenotypeArray :=
  mkGenotypeArray (length data) (length (default [] (head data)))
                  (length (default [] (head data ≫= head))) data.

(** [np.array(data)] for a nested list of Python integers: the dtype is
    [int64]. *)
Definition np_array (data : list (list (list Z))) : ndarray :=
  mkArray int64 (genotype_array data).

(** [g[:, :2]] and [g[:, 2:]] of [g = np.array(data)] *)
Definition parents_of (data : list (list (list Z))) : ndarray :=
  np_array (take 2 <$> data).
Definition progeny_of (data : list (list (list Z))) : ndarray :=
  np_array (drop 2 <$> data).

Definition doctest_consistent : list (list (list Z)) :=
  [ [[0; 0]; [0; 0]; [0; 0]; [-1; -1]; [-1; -1]; [-1; -1]];
    [[1; 1]; [1; 1]; [1; 1]; [-1; -1]; [-1; -1]; [-1; -1]];
    [[2; 2]; [2; 2]; [2; 2]; [-1; -1]; [-1; -1]; [-1; -1]];
    [[0; 0]; [0; 1]; [0; 0]; [0; 1]; [-1; -1]; [-1; -1]];
    [[0; 0]; [0; 2]; [0; 0]; [0; 2]; [-1; -1]; [-1; -1]];
    [[1; 1]; [0; 1]; [1; 1]; [0; 1]; [-1; -1]; [-1; -1]];
    [[0; 0]; [1; 1]; [0; 1]; [-1; -1]; [-1; -1]; [-1; -1]];
    [[0; 0]; [2; 2]; [0; 2]; [-1; -1]; [-1; -1]; [-1; -1]];
    [[1; 1]; [2; 2]; [1; 2]; [-1; -1]; [-1; -1]; [-1; -1]];
    [[0; 0]; [1; 2]; [0; 1]; [0; 2]; [-1; -1]; [-1; -1]];
    [[1; 1]; [0; 2]; [0; 1]; [1; 2]; [-1; -1]; [-1; -1]];
    [[0; 1]; [0; 1]; [0; 0]; [0; 1]; [1; 1]; [-1; -1]];
    [[1; 2]; [1; 2]; [1; 1]; [1; 2]; [2; 2]; [-1; -1]];
    [[0; 2]; [0; 2]; [0; 0]; [0; 2]; [2; 2]; [-1; -1]];
    [[0; 1]; [1; 2]; [0; 1]; [0; 2]; [1; 1]; [1; 2]];
    [[0; 1]; [0; 2]; [0; 0]; [0; 1]; [0; 1]; [1; 2]];
    [[0; 1]; [2; 3]; [0; 2]; [0; 3]; [1; 2]; [1; 3]] ].

Definition doctest_nonparental : list (list (list Z)) :=
  [ [[0; 0]; [0; 0]; [0; 1]; [0; 2]; [1; 1]; [2; 2]];
    [[1; 1]; [1; 1]; [0; 1]; [1; 2]; [0; 0]; [2; 2]];
    [[2; 2]; [2; 2]; [0; 2]; [1; 2]; [0; 0]; [1; 1]];
    [[0; 0]; [0; 1]; [0; 2]; [1; 2]; [2; 2]; [2; 2]];
    [[0; 0]; [0; 2]; [0; 1]; [1; 2]; [1; 1]; [1; 1]];
    [[1; 1]; [0; 1]; [1; 2]; [0; 2]; [2; 2]; [2; 2]];
    [[0; 0]; [1; 1]; [0; 2]; [1; 2]; [2; 2]; [2; 2]];
    [[0; 0]; [2; 2]; [0; 1]; [1; 2]; [1; 1]; [1; 1]];
    [[1; 1]; [2; 2]; [0; 1]; [0; 2]; [0; 0]; [0; 0]];
    [[0; 1]; [0; 1]; [0; 2]; [1; 2]; [2; 2]; [2; 2]];
    [[0; 2]; [0; 2]; [0; 1]; [1; 2]; [1; 1]; [1; 1]];
    [[1; 2]; [1; 2]; [0; 1]; [0; 2]; [0; 0]; [0; 0]];
    [[0; 1]; [1; 2]; [0; 3]; [1; 3]; [2; 3]; [3; 3]];
    [[0; 1]; [0; 2]; [0; 3]; [1; 3]; [2; 3]; [3; 3]];
    [[0; 2]; [1; 2]; [0; 3]; [1; 3]; [2; 3]; [3; 3]];
    [[0; 1]; [2; 3]; [0; 4]; [1; 4]; [2; 4]; [3; 4]] ].

Definition doctest_hemiparental : list (list (list Z)) :=
  [ [[0; 0]; [0; 1]; [1; 1]; [-1; -1]];
    [[0; 0]; [0; 2]; [2; 2]; [-1; -1]];
    [[1; 1]; [0; 1]; [0; 0]; [-1; -1]];
    [[0; 1]; [1; 2]; [0; 0]; [2; 2]];
    [[0; 1]; [0; 2]; [1; 1]; [2; 2]];
    [[0; 2]; [1; 2]; [0; 0]; [1; 1]];
    [[0; 1]; [2; 3]; [0; 0]; [1; 1]];
    [[0; 1]; [2; 3]; [2; 2]; [3; 3]] ].

Definition doctest_uniparental : list (list (list Z)) :=
  [ [[0; 0]; [1; 1]; [0; 0]; [1; 1]];
    [[0; 0]; [2; 2]; [0; 0]; [2; 2]];
    [[1; 1]; [2; 2]; [1; 1]; [2; 2]];
    [[0; 0]; [1; 2]; [0; 0]; [1; 2]];
    [[1; 1]; [0; 2]; [1; 1]; [0; 2]];
    [[0; 1]; [2; 3]; [0; 1]; [2; 3]] ].

Definition haplotype_array (data : list (list Z)) : HaplotypeArray :=
  mkHaplotypeArray (length data) (length (default [] (head data))) data.

Definition doctest_haplotypes : list (list Z) :=
  [ [0; 0; 0; 1; 2; -1];
    [0; 1; 0; 1; 2; -1];
    [1; 0; 0; 1; 2; -1];
    [1; 1; 0; 1; 2; -1];
    [0; 2; 0; 1; 2; -1];
    [0; -1; 0; 1; 2; -1];
    [-1; 1; 0; 1; 2; -1];
    [-1; -1; 0; 1; 2; -1] ].

Definition doctest_trios : list (list (list Z)) :=
  [ [[0; 0]; [0; 0]; [0; 0]];
    [[1; 1]; [1; 1]; [1; 1]];
    [[0; 0]; [1; 1]; [0; 1]];
    [[1; 1]; [0; 0]; [0; 1]];
    [[0; 0]; [0; 1]; [0; 0]];
    [[0; 0]; [0; 1]; [0; 1]];
    [[0; 1]; [0; 0]; [0; 1]];
    [[0; 1]; [0; 1]; [0; 1]];
    [[0; 1]; [1; 2]; [0; 1]];
    [[1; 2]; [0; 1]; [1; 2]];
    [[0; 1]; [2; 3]; [0; 2]];
    [[2; 3]; [0; 1]; [1; 3]];
    [[0; 0]; [0; 0]; [-1; -1]];
    [[0; 0]; [0; 0]; [1; 1]] ].

Definition doctest_trios_phased : list (list (list Z)) :=
  [ [[0; 0]; [0; 0]; [0; 0]];
    [[1; 1]; [1; 1]; [1; 1]];
    [[0; 0]; [1; 1]; [0; 1]];
    [[1; 1]; [0; 0]; [1; 0]];
    [[0; 0]; [0; 1]; [0; 0]];
    [[0; 0]; [0; 1]; [0; 1]];
    [[0; 1]; [0; 0]; [1; 0]];
    [[0; 1]; [0; 1]; [0; 1]];
    [[0; 1]; [1; 2]; [0; 1]];
    [[1; 2]; [0; 1]; [2; 1]];
    [[0; 1]; [2; 3]; [0; 2]];
    [[2; 3]; [0; 1]; [3; 1]];
    [[0; 0]; [0; 0]; [-1; -1]];
    [[0; 0]; [0; 0]; [1; 1]] ].

Definition doctest_is_phased : list (list bool) :=
  (λ b : bool, [false; false; b]) <$>
  [true; true; true; true; true; true; true; false; true; true; true; true;
   false; false].

(** * Properties *)

(** ** The doctests *)

Example mendel_errors_doctest_consistent :
  mendel_errors (parents_of doctest_consistent) (progeny_of doctest_consistent)
  = Ok (replicate 17 [0; 0; 0; 0]).
Proof. vm_compute. reflexivity. Qed.

Example mendel_errors_doctest_nonparental :
  mendel_errors (parents_of doctest_nonparental) (progeny_of doctest_nonparental)
  = Ok (replicate 12 [1; 1; 2; 2] ++ replicate 3 [1; 1; 1; 2] ++ [[1; 1; 1; 1]]).
Proof. vm_compute. reflexivity. Qed.

Example mendel_errors_doctest_hemiparental :
  mendel_errors (parents_of doctest_hemiparental) (progeny_of doctest_hemiparental)
  = Ok (replicate 3 [1; 0] ++ replicate 5 [1; 1]).
Proof. vm_compute. reflexivity. Qed.

Example mendel_errors_doctest_uniparental :
  mendel_errors (parents_of doctest_uniparental) (progeny_of doctest_uniparental)
  = Ok (replicate 6 [1; 1]).
Proof. vm_compute. reflexivity. Qed.

Example paint_transmission_doctest :
  paint_transmission (haplotype_array (take 2 <$> doctest_haplotypes))
                     (haplotype_array (drop 2 <$> doctest_haplotypes))
  = Ok [ [3; 5; 5; 7]; [1; 2; 5; 7]; [2; 1; 5; 7]; [5; 4; 5; 7];
         [1; 5; 2; 7]; [6; 6; 6; 7]; [6; 6; 6; 7]; [6; 6; 6; 7] ].
Proof. vm_compute. reflexivity. Qed.

Example phase_progeny_by_transmission_doctest :
  phase_progeny_by_transmission phase_buffer_spec 1%positive false
    {[ 1%positive := mkArray int8 (genotype_array doctest_trios) ]}
  = (Ok (1%positive, doctest_is_phased),
     {[ 1%positive := mkArray int8 (genotype_array doctest_trios_phased) ]}).
Proof. vm_compute. reflexivity. Qed.

(** ** Cells of the array operations *)

Lemma cell_fmap {A B} (f : A → B) (a : list (list A)) i j :
  cell ((λ row : list A, f <$> row) <$> a) i j = f <$> cell a i j.
Proof.
  unfold cell. rewrite list_lookup_fmap.
  destruct (a !! i) as [row|]; simpl; [|done].
  by rewrite list_lookup_fmap.
Qed.

Lemma cell_zip2d {A B C} (f : A → B → C) a b i j :
  cell (zip2d f a b) i j = (x ← cell a i j; y ← cell b i j; Some (f x y)).
Proof.
  unfold cell, zip2d. rewrite lookup_zip_with.
  destruct (a !! i) as [ra|]; simpl; [|done].
  destruct (b !! i) as [rb|]; simpl.
  - by rewrite lookup_zip_with.
  - by destruct (ra !! j).
Qed.

Lemma cell_mask_assign {A} (a : list (list A)) mask v i j :
  cell (mask_assign a mask v) i j
  = (x ← cell a i j; b ← cell mask i j; Some (if b : bool then v else x)).
Proof. apply (cell_zip2d (λ x (b : bool), if b then v else x)). Qed.

Lemma cell_broadcast_col {A B C} (f : A → B → C) a col i j :
  cell (broadcast_col f a col) i j
  = (x ← cell a i j; p ← col !! i; Some (f x p)).
Proof.
  unfold cell, broadcast_col. rewrite lookup_zip_with.
  destruct (a !! i) as [ra|]; simpl; [|done].
  destruct (col !! i) as [p|]; simpl.
  - rewrite list_lookup_fmap. by destruct (ra !! j).
  - by destruct (ra !! j).
Qed.

Lemma cell_row_mask_assign {A} (a : list (list A)) mask v i j :
  cell (row_mask_assign a mask v) i j
  = (x ← cell a i j; b ← mask !! i; Some (if b : bool then v else x)).
Proof.
  unfold cell, row_mask_assign. rewrite lookup_zip_with.
  destruct (a !! i) as [ra|]; simpl; [|done].
  destruct (mask !! i) as [[]|]; simpl.
  - rewrite list_lookup_fmap. by destruct (ra !! j).
  - by destruct (ra !! j).
  - by destruct (ra !! j).
Qed.

Lemma zip_with_fmap_diag {A B C D} (f : B → C → D) (g : A → B) (h : A → C) l :
  zip_with f (g <$> l) (h <$> l) = (λ a, f (g a) (h a)) <$> l.
Proof. induction l; csimpl; [done|]. by f_equal. Qed.

Lemma zip_with_add_zeros (v : list Z) :
  zip_with Z.add v (replicate (length v) 0) = v.
Proof. induction v; simpl; [done|]. f_equal; [lia|done]. Qed.

Lemma forallb_eqb_fmap {A} (g h : A → Z) l :
  forallb id (zip_with Z.eqb (g <$> l) (h <$> l)) = bool_decide (g <$> l = h <$> l).
Proof.
  induction l as [|a l IH]; csimpl; [done|].
  rewrite IH. destruct (Z.eqb_spec (g a) (h a)) as [e|n]; simpl.
  - rewrite e. apply bool_decide_ext. split; [congruence|]. by intros [=].
  - symmetry. apply bool_decide_eq_false. by intros [=].
Qed.

Lemma existsb_zip_with_fmap {A} (f : Z → Z → bool) (g h : A → Z) l :
  existsb id (zip_with f (g <$> l) (h <$> l)) = existsb (λ a, f (g a) (h a)) l.
Proof. induction l; csimpl; [done|]. by f_equal. Qed.

(** ** The stages of [mendel_errors], cell by cell *)

Lemma cell_to_allele_counts alleles g i j :
  cell (to_allele_counts alleles g) i j = allele_counts alleles <$> call_at g i j.
Proof. apply cell_fmap. Qed.

Lemma row_to_allele_counts alleles g i row :
  calls g !! i = Some row →
  to_allele_counts alleles g !! i = Some (allele_counts alleles <$> row).
Proof. intros H. unfold to_allele_counts. by rewrite list_lookup_fmap, H. Qed.

Lemma length_allele_counts alleles c :
  length (allele_counts alleles c) = length alleles.
Proof. unfold allele_counts. apply length_fmap. Qed.

Lemma availability_sum alleles p1 p2 :
  foldr (zip_with Z.add) (replicate (length alleles) 0)
        ((λ gc : list Z, Z.min 1 <$> gc) <$> (allele_counts alleles <$> [p1; p2]))
  = spec_availability alleles p1 p2.
Proof.
  csimpl. unfold allele_counts, spec_availability.
  rewrite <- !list_fmap_compose.
  rewrite <- (length_fmap (Z.min 1 ∘ (λ a, count_allele a p2)) alleles) at 1.
  rewrite zip_with_add_zeros. apply zip_with_fmap_diag.
Qed.

Lemma base_errors_cell alleles parents progeny i j p1 p2 c :
  calls parents !! i = Some [p1; p2] →
  call_at progeny i j = Some c →
  cell (base_errors (length alleles) (to_allele_counts alleles parents)
                    (to_allele_counts alleles progeny)) i j
  = Some (spec_base_count alleles p1 p2 c).
Proof.
  intros Hp Hc. unfold call_at in Hc.
  destruct (calls progeny !! i) as [row|] eqn:Hrow; [|done]. simpl in Hc.
  unfold cell, base_errors, sum_axis1.
  rewrite lookup_zip_with, (row_to_allele_counts _ _ _ _ Hrow). simpl.
  rewrite !list_lookup_fmap, (row_to_allele_counts _ _ _ _ Hp). simpl.
  rewrite !list_lookup_fmap, Hc. simpl.
  unfold spec_base_count. do 4 f_equal. apply (availability_sum alleles p1 p2).
Qed.

Lemma index_axis1_row {A} dim1 k (a : list (list (list A))) col i row :
  index_axis1 dim1 k a = Ok col → a !! i = Some row →
  col !! i = Some (default [] (row !! k)).
Proof.
  unfold index_axis1. case_bool_decide; [|done].
  intros [= <-] Hrow. by rewrite list_lookup_fmap, Hrow.
Qed.

Lemma uniparental_mask_cell alleles p1_gc p2_gc progeny i j p1 p2 c :
  p1_gc !! i = Some (allele_counts alleles p1) →
  p2_gc !! i = Some (allele_counts alleles p2) →
  call_at progeny i j = Some c →
  cell (uniparental_mask p1_gc p2_gc (to_allele_counts alleles progeny)) i j
  = Some (spec_uniparental alleles p1 p2 c).
Proof.
  intros H1 H2 Hc. unfold call_at in Hc.
  destruct (calls progeny !! i) as [row|] eqn:Hrow; [|done]. simpl in Hc.
  unfold cell, uniparental_mask, all_equal.
  rewrite lookup_zip_with, list_lookup_fmap, !lookup_zip_with, H1, H2. simpl.
  rewrite (row_to_allele_counts _ _ _ _ Hrow). simpl.
  rewrite list_lookup_fmap, lookup_zip_with, !list_lookup_fmap, Hc. simpl.
  f_equal. unfold spec_uniparental, spec_share_no_allele, allele_counts.
  by rewrite existsb_zip_with_fmap, !forallb_eqb_fmap.
Qed.

Lemma parent_missing_mask_row parents i p1 p2 :
  calls parents !! i = Some [p1; p2] →
  parent_missing_mask parents !! i
  = Some (call_is_missing p1 || call_is_missing p2).
Proof.
  intros H. unfold parent_missing_mask, is_missing.
  rewrite !list_lookup_fmap, H. simpl. by rewrite orb_false_r.
Qed.

(** ** The allele universe *)

Lemma foldl_max_le x xs : x ≤ foldl Z.max x xs.
Proof.
  revert x. induction xs as [|y xs IH]; intros x; simpl; [lia|].
  etrans; [|apply IH]. lia.
Qed.

Lemma foldl_max_bound x xs a : a ∈ x :: xs → a ≤ foldl Z.max x xs.
Proof.
  revert x. induction xs as [|y xs IH]; intros x Ha; simpl.
  - apply list_elem_of_singleton in Ha. lia.
  - apply elem_of_cons in Ha as [->|Ha].
    + etrans; [|apply foldl_max_le]. lia.
    + apply elem_of_cons in Ha as [->|Ha].
      * etrans; [|apply foldl_max_le]. lia.
      * apply IH. by right.
Qed.

Lemma call_at_elem_of g i j c a :
  call_at g i j = Some c → a ∈ c → a ∈ concat (concat (calls g)).
Proof.
  unfold call_at. intros H Ha.
  destruct (calls g !! i) as [row|] eqn:Hrow; [|done]. simpl in H.
  apply list_elem_of_In, in_concat. exists c. split; [|by apply list_elem_of_In].
  apply in_concat. exists row.
  split; apply list_elem_of_In; by eapply list_elem_of_lookup_2.
Qed.

Lemma amax_bound g m i j c a :
  amax g = Ok m → call_at g i j = Some c → a ∈ c → a ≤ m.
Proof.
  unfold amax. intros Hm Hc Ha.
  pose proof (call_at_elem_of _ _ _ _ _ Hc Ha) as Hin.
  destruct (concat (concat (calls g))) as [|x xs]; [done|].
  injection Hm as <-. by apply foldl_max_bound.
Qed.

Lemma amax_total g i j c a :
  call_at g i j = Some c → a ∈ c → ∃ m, amax g = Ok m.
Proof.
  unfold amax. intros Hc Ha.
  pose proof (call_at_elem_of _ _ _ _ _ Hc Ha) as Hin.
  destruct (concat (concat (calls g))) as [|x xs]; [|by eexists].
  by apply elem_of_nil in Hin.
Qed.

Lemma elem_of_py_range a n : a ∈ py_range n ↔ 0 ≤ a < n.
Proof.
  unfold py_range. rewrite list_elem_of_fmap. split.
  - intros (k & -> & Hk). apply elem_of_seq in Hk. lia.
  - intros H. exists (Z.to_nat a). split; [lia|]. apply elem_of_seq. lia.
Qed.

(** ** What [mendel_errors] computes at a cell *)

Lemma well_shaped_call g i j c :
  well_shaped g = true → call_at g i j = Some c → length c = ploidy g.
Proof.
  unfold well_shaped, call_at. intros [_ H]%andb_prop Hc.
  destruct (calls g !! i) as [row|] eqn:Hrow; [|done]. simpl in Hc.
  rewrite forallb_forall in H.
  apply list_elem_of_lookup_2, list_elem_of_In, H in Hrow.
  apply andb_prop in Hrow as [_ Hrow]. rewrite forallb_forall in Hrow.
  apply list_elem_of_lookup_2, list_elem_of_In, Hrow in Hc.
  by apply bool_decide_eq_true in Hc.
Qed.

Lemma foldl_max_elem x xs : foldl Z.max x xs ∈ x :: xs.
Proof.
  revert x. induction xs as [|y xs IH]; intros x; simpl; [by left|].
  specialize (IH (Z.max x y)). apply elem_of_cons in IH as [IH|IH].
  - rewrite IH. destruct (Z.max_spec x y) as [[_ ->]|[_ ->]];
      [right; by left|by left].
  - right. by right.
Qed.

Lemma amax_elem g m : amax g = Ok m → m ∈ concat (concat (calls g)).
Proof.
  unfold amax. destruct (concat (concat (calls g))) as [|x xs]; [done|].
  intros [= <-]. apply foldl_max_elem.
Qed.

Lemma amax_upper g m a : amax g = Ok m → a ∈ concat (concat (calls g)) → a ≤ m.
Proof.
  unfold amax. destruct (concat (concat (calls g))) as [|x xs]; [done|].
  intros [= <-]. apply foldl_max_bound.
Qed.

Lemma elem_of_flatten (l : list (list (list Z))) a :
  a ∈ concat (concat l) ↔ ∃ i j c, l !! i ≫= (.!! j) = Some c ∧ a ∈ c.
Proof.
  rewrite list_elem_of_In, in_concat. split.
  - intros (c & Hc & Ha). apply in_concat in Hc as (row & Hrow & Hc).
    apply list_elem_of_In, list_elem_of_lookup_1 in Hrow as [i Hi].
    apply list_elem_of_In, list_elem_of_lookup_1 in Hc as [j Hj].
    exists i, j, c. rewrite Hi. simpl. split; [done|]. by apply list_elem_of_In.
  - intros (i & j & c & Hc & Ha).
    destruct (l !! i) as [row|] eqn:Hrow; [|done]. simpl in Hc.
    exists c. split; [|by apply list_elem_of_In].
    apply in_concat. exists row.
    split; apply list_elem_of_In; by eapply list_elem_of_lookup_2.
Qed.

Lemma cast_id t z : dtype_min t ≤ z ≤ dtype_max t → cast t z = z.
Proof.
  unfold cast, dtype_min, dtype_max.
  destruct t; cbv [dtype_bits dtype_signed]; cbv zeta;
    repeat match goal with
           | |- context [2 ^ ?n] =>
               let v := eval vm_compute in (2 ^ n) in change (2 ^ n) with v
           | |- context [Z.pos ?a / Z.pos ?b] =>
               let v := eval vm_compute in (Z.pos a / Z.pos b) in
               change (Z.pos a / Z.pos b) with v
           end;
    intros H; rewrite Z.mod_small; lia.
Qed.

Lemma alleles_below_dtype_max_elem (g : ndarray) z :
  alleles_below_dtype_max g = true →
  z ∈ concat (concat (calls g)) →
  dtype_min (arr_dtype g) ≤ z < dtype_max (arr_dtype g).
Proof.
  unfold alleles_below_dtype_max. intros H (i & j & c & Hc & Hz)%elem_of_flatten.
  destruct (calls g !! i) as [row|] eqn:Hrow; [|done]. simpl in Hc.
  rewrite forallb_forall in H.
  apply list_elem_of_lookup_2, list_elem_of_In, H in Hrow.
  rewrite forallb_forall in Hrow.
  apply list_elem_of_lookup_2, list_elem_of_In, Hrow in Hc.
  rewrite forallb_forall in Hc. apply list_elem_of_In, Hc in Hz.
  apply andb_prop in Hz as [?%Z.leb_le ?%Z.ltb_lt]. lia.
Qed.

(** Where no entry is the largest value of its dtype, [max_allele + 1] is
    one more than the largest entry of the two arrays. *)
Lemma scalar_succ_no_overflow (parents progeny : ndarray) pm gm :
  amax parents = Ok pm → amax progeny = Ok gm →
  alleles_below_dtype_max parents = true →
  alleles_below_dtype_max progeny = true →
  scalar_succ (py_max (arr_dtype parents, pm) (arr_dtype progeny, gm))
  = Z.max pm gm + 1.
Proof.
  intros Hpm Hgm Hbp Hbg.
  pose proof (alleles_below_dtype_max_elem _ _ Hbp (amax_elem _ _ Hpm)).
  pose proof (alleles_below_dtype_max_elem _ _ Hbg (amax_elem _ _ Hgm)).
  unfold scalar_succ, py_max. simpl.
  destruct (Z.ltb_spec pm gm); simpl; rewrite cast_id; lia.
Qed.

Lemma trio_arrays_inv parents progeny :
  trio_arrays parents progeny = true →
  well_shaped parents = true ∧ well_shaped progeny = true ∧
  ploidy parents = 2%nat ∧ ploidy progeny = 2%nat ∧
  n_samples parents = 2%nat ∧ n_variants parents = n_variants progeny.
Proof.
  unfold trio_arrays. rewrite !andb_true_iff, !bool_decide_eq_true. tauto.
Qed.

Lemma mendel_errors_trace_cell (parents progeny : ndarray) i j p1 p2 c :
  trio_arrays parents progeny = true →
  calls parents !! i = Some [p1; p2] →
  call_at progeny i j = Some c →
  ∃ t, mendel_errors_trace parents progeny = Ok t
     ∧ mendel_errors parents progeny = Ok (me_final t)
     ∧ (∀ a, a ∈ tr_alleles t → 0 ≤ a)
     ∧ (alleles_below_dtype_max parents = true →
        alleles_below_dtype_max progeny = true →
        ∀ a, 0 ≤ a → a ∈ p1 ∨ a ∈ p2 ∨ a ∈ c → a ∈ tr_alleles t)
     ∧ cell (me_base t) i j = Some (spec_base_count (tr_alleles t) p1 p2 c)
     ∧ cell (me_uniparental t) i j
       = Some (if spec_uniparental (tr_alleles t) p1 p2 c then 1
               else spec_base_count (tr_alleles t) p1 p2 c)
     ∧ cell (me_final t) i j = Some (spec_mendel_error (tr_alleles t) p1 p2 c).
Proof.
  intros (Hwp & Hwg & Hpp & Hpg & Hsp & _)%trio_arrays_inv Hp Hc.
  assert (call_at parents i 0 = Some p1) as Hp1 by (unfold call_at; by rewrite Hp).
  assert (call_at parents i 1 = Some p2) as Hp2 by (unfold call_at; by rewrite Hp).
  pose proof (well_shaped_call _ _ _ _ Hwp Hp1) as Hl1.
  pose proof (well_shaped_call _ _ _ _ Hwg Hc) as Hlc.
  rewrite Hpp in Hl1. rewrite Hpg in Hlc.
  destruct p1 as [|x1 p1']; [done|]. destruct c as [|y1 c']; [done|].
  destruct (amax_total parents i 0 (x1 :: p1') x1 Hp1) as [pm Hpm]; [by left|].
  destruct (amax_total progeny i j (y1 :: c') y1 Hc) as [gm Hgm]; [by left|].
  unfold mendel_errors, mendel_errors_trace.
  rewrite Hpp, Hpg, Hpm, Hgm, Hsp. simpl.
  set (alleles := py_range _).
  eexists. split; [reflexivity|]. simpl. split; [reflexivity|].
  split; [intros a Ha%elem_of_py_range; lia|].
  assert (index_axis1 2 0 (to_allele_counts alleles parents)
          = Ok ((λ row : list (list Z), default [] (row !! 0%nat))
                <$> to_allele_counts alleles parents)) as H0 by done.
  assert (index_axis1 2 1 (to_allele_counts alleles parents)
          = Ok ((λ row : list (list Z), default [] (row !! 1%nat))
                <$> to_allele_counts alleles parents)) as H1 by done.
  pose proof (index_axis1_row _ _ _ _ i _ H0
                (row_to_allele_counts alleles _ _ _ Hp)) as Hg1.
  pose proof (index_axis1_row _ _ _ _ i _ H1
                (row_to_allele_counts alleles _ _ _ Hp)) as Hg2.
  simpl in Hg1, Hg2.
  pose proof (base_errors_cell alleles _ _ _ _ _ _ _ Hp Hc) as Hbase.
  pose proof (uniparental_mask_cell alleles _ _ _ _ _ _ _ _ Hg1 Hg2 Hc) as Huni.
  split; [|split; [done|split]].
  - intros Hbp Hbg a Ha Hin. subst alleles.
    rewrite (scalar_succ_no_overflow parents progeny pm gm) by done.
    apply elem_of_py_range. split; [done|].
    destruct Hin as [Hin|[Hin|Hin]].
    + pose proof (amax_bound _ _ _ _ _ _ Hpm Hp1 Hin). lia.
    + pose proof (amax_bound _ _ _ _ _ _ Hpm Hp2 Hin). lia.
    + pose proof (amax_bound _ _ _ _ _ _ Hgm Hc Hin). lia.
  - by rewrite cell_mask_assign, Hbase, Huni.
  - rewrite cell_row_mask_assign, cell_mask_assign, Hbase, Huni. simpl.
    rewrite (parent_missing_mask_row _ _ _ _ Hp). simpl.
    reflexivity.
Qed.

(** The list [alleles] of a run. *)
Lemma mendel_errors_trace_alleles (parents progeny : ndarray) t :
  mendel_errors_trace parents progeny = Ok t →
  ∃ pm gm, amax parents = Ok pm ∧ amax progeny = Ok gm
         ∧ tr_alleles t
           = py_range (scalar_succ (py_max (arr_dtype parents, pm)
                                           (arr_dtype progeny, gm))).
Proof.
  unfold mendel_errors_trace.
  destruct (bool_decide (ploidy parents ≠ 2%nat) || bool_decide (ploidy progeny ≠ 2%nat));
    [done|]. simpl.
  destruct (amax parents) as [pm|]; [|done]. simpl.
  destruct (amax progeny) as [gm|]; [|done]. simpl.
  destruct (index_axis1 _ 0 _); [|done]. simpl.
  destruct (index_axis1 _ 1 _); [|done]. simpl.
  intros [= <-]. by exists pm, gm.
Qed.

Lemma mendel_errors_trace_stages (parents progeny : ndarray) t :
  mendel_errors_trace parents progeny = Ok t →
  me_final t = row_mask_assign (me_uniparental t) (parent_missing_mask parents) 0.
Proof.
  unfold mendel_errors_trace.
  destruct (bool_decide (ploidy parents ≠ 2%nat) || bool_decide (ploidy progeny ≠ 2%nat));
    [done|]. simpl.
  destruct (amax parents); [|done]. simpl.
  destruct (amax progeny); [|done]. simpl.
  destruct (index_axis1 _ 0 _); [|done]. simpl.
  destruct (index_axis1 _ 1 _); [|done]. simpl.
  by intros [= <-].
Qed.

(** ** Allele counts *)

Lemma count_allele_nil a : count_allele a [] = 0.
Proof. reflexivity. Qed.

Lemma count_allele_cons a x call :
  count_allele a (x :: call) = b2z (x =? a) + count_allele a call.
Proof. reflexivity. Qed.

(** Compares the allele counts of explicit calls at an arbitrary allele. *)
Ltac count_cases :=
  rewrite ?count_allele_cons, ?count_allele_nil; unfold b2z;
  repeat match goal with
         | |- context [?x =? ?a] => destruct (Z.eqb_spec x a)
         end; lia.

Lemma count_allele_nonneg a call : 0 ≤ count_allele a call.
Proof.
  unfold count_allele. induction call as [|x call IH]; csimpl; [done|].
  unfold b2z at 1. destruct (x =? a); lia.
Qed.

Lemma count_allele_pos a call : 0 < count_allele a call ↔ a ∈ call.
Proof.
  unfold count_allele. induction call as [|x call IH]; csimpl.
  - split; [lia|]. by intros ?%elem_of_nil.
  - pose proof (count_allele_nonneg a call) as Hn. unfold count_allele in Hn.
    rewrite elem_of_cons, <- IH. unfold b2z at 1.
    destruct (Z.eqb_spec x a) as [->|Hne]; [split; [by left|lia]|].
    split; [intros; right; lia|]. intros [->|H]; [done|lia].
Qed.

Lemma count_allele_absent a call : a ∉ call → count_allele a call = 0.
Proof.
  intros H. pose proof (count_allele_nonneg a call).
  destruct (decide (0 < count_allele a call)) as [Hp|Hp]; [|lia].
  by apply count_allele_pos in Hp.
Qed.

Lemma sumZ_zero l : Forall (λ x, x = 0) l → sumZ l = 0.
Proof. induction 1 as [|x l -> _ IH]; simpl; [done|]. by rewrite IH. Qed.

Lemma spec_base_count_zero alleles p1 p2 c :
  (∀ a, a ∈ alleles →
        count_allele a c
        ≤ Z.min 1 (count_allele a p1) + Z.min 1 (count_allele a p2)) →
  spec_base_count alleles p1 p2 c = 0.
Proof.
  intros H. unfold spec_base_count, allele_counts, spec_availability.
  rewrite zip_with_fmap_diag, <- list_fmap_compose.
  apply sumZ_zero, Forall_fmap, Forall_forall. intros a Ha. simpl.
  specialize (H a Ha). lia.
Qed.

Lemma share_no_allele_true alleles p1 p2 :
  (∀ a, a ∈ alleles → a ∈ p1 → a ∉ p2) →
  spec_share_no_allele alleles p1 p2 = true.
Proof.
  intros H. unfold spec_share_no_allele. apply negb_true_iff.
  apply not_true_is_false. intros (a & Ha & Hs)%existsb_exists.
  apply andb_prop in Hs as [H1%Z.ltb_lt%count_allele_pos H2%Z.ltb_lt%count_allele_pos].
  apply list_elem_of_In in Ha. by eapply H.
Qed.

Lemma allele_counts_eq alleles c p :
  (∀ a, a ∈ alleles → count_allele a c = count_allele a p) →
  allele_counts alleles c = allele_counts alleles p.
Proof.
  intros H. unfold allele_counts. apply Forall_fmap_ext, Forall_forall.
  intros a Ha. by apply H.
Qed.

Lemma allele_counts_neq alleles c p a :
  a ∈ alleles → count_allele a c ≠ count_allele a p →
  allele_counts alleles c ≠ allele_counts alleles p.
Proof.
  intros Ha Hne Heq. unfold allele_counts in Heq.
  apply Forall_fmap_ext in Heq. rewrite Forall_forall in Heq. by apply Hne, Heq.
Qed.

Lemma call_is_missing_spec call :
  call_is_missing call = true ↔ ∃ a, a ∈ call ∧ a < 0.
Proof.
  unfold call_is_missing. rewrite existsb_exists.
  split; intros (a & Ha & Hlt); exists a.
  - split; [by apply list_elem_of_In|lia].
  - split; [by apply list_elem_of_In|]. by apply Z.ltb_lt.
Qed.

Lemma NoDup_py_range n : NoDup (py_range n).
Proof.
  unfold py_range. apply NoDup_fmap; [apply Nat2Z.inj'|apply NoDup_seq].
Qed.

Lemma spec_uniparental_true_iff alleles p1 p2 c :
  spec_uniparental alleles p1 p2 c = true ↔
  (∀ a, a ∈ alleles → a ∈ p1 → a ∉ p2) ∧
  ((∀ a, a ∈ alleles → count_allele a c = count_allele a p1) ∨
   (∀ a, a ∈ alleles → count_allele a c = count_allele a p2)).
Proof.
  unfold spec_uniparental, spec_share_no_allele, allele_counts.
  rewrite andb_true_iff, orb_true_iff, negb_true_iff, !bool_decide_eq_true.
  rewrite <- !Forall_fmap_ext, !Forall_forall.
  split; intros [Hs He]; (split; [|done]).
  - intros a Ha H1 H2. apply not_true_iff_false in Hs. apply Hs.
    apply existsb_exists. exists a. split; [by apply list_elem_of_In|].
    apply andb_true_intro. split; by apply Z.ltb_lt, count_allele_pos.
  - apply not_true_is_false. intros (a & Ha & Hb)%existsb_exists.
    apply andb_prop in Hb as [H1%Z.ltb_lt%count_allele_pos H2%Z.ltb_lt%count_allele_pos].
    apply list_elem_of_In in Ha. by eapply Hs.
Qed.

Lemma spec_uniparental_universe U p1 p2 c :
  universe_of U p1 p2 c →
  spec_uniparental U p1 p2 c = true ↔
  (∀ a, 0 ≤ a → a ∈ p1 → a ∉ p2) ∧
  ((∀ a, 0 ≤ a → count_allele a c = count_allele a p1) ∨
   (∀ a, 0 ≤ a → count_allele a c = count_allele a p2)).
Proof.
  intros (_ & Hnn & Hin). rewrite spec_uniparental_true_iff.
  assert (∀ p, (p = p1 ∨ p = p2) →
            (∀ a, a ∈ U → count_allele a c = count_allele a p) ↔
            (∀ a, 0 ≤ a → count_allele a c = count_allele a p)) as Hcnt.
  { intros p Hp. split; intros H a Ha; [|by apply H, Hnn].
    destruct (decide (a ∈ U)) as [|Hout]; [by apply H|].
    rewrite !count_allele_absent; [done| |].
    - intros Hap. apply Hout, Hin; [done|]. destruct Hp as [-> | ->]; auto.
    - intros Hac. apply Hout, Hin; auto. }
  rewrite (Hcnt p1), (Hcnt p2) by auto.
  split; intros [Hs He]; (split; [|done]).
  - intros a Ha H1. apply Hs; [|done]. apply Hin; auto.
  - intros a Ha. by apply Hs, Hnn.
Qed.

(** ** The Mendel-error detector *)

Lemma universe_of_trace (parents progeny : ndarray) t p1 p2 c :
  mendel_errors_trace parents progeny = Ok t →
  (∀ a, 0 ≤ a → a ∈ p1 ∨ a ∈ p2 ∨ a ∈ c → a ∈ tr_alleles t) →
  universe_of (tr_alleles t) p1 p2 c.
Proof.
  intros Hrun Hin.
  destruct (mendel_errors_trace_alleles _ _ _ Hrun) as (pm & gm & _ & _ & Hn).
  split; [rewrite Hn; apply NoDup_py_range|]. split; [|done].
  rewrite Hn. intros a Ha%elem_of_py_range. lia.
Qed.

Section MendelCell.

(** Parents of shape (n_variants, 2, 2) and progeny of shape
    (n_variants, n_progeny, 2); [p1] and [p2] are the calls of the parents
    at variant [i], and [c] is the call of progeny [j] there. *)
Variables (parents progeny : ndarray) (i j : nat) (p1 p2 c : list Z).
Hypothesis Hshape : trio_arrays parents progeny = true.
Hypothesis Hparents : calls parents !! i = Some [p1; p2].
Hypothesis Hcall : call_at progeny i j = Some c.

(** C2.  At a variant where the two parents share no allele, a progeny call
    whose allele counts are those of one parent or of the other has its
    error count set to 1 by the assignment of lines 210-212, whatever the
    base count of the cell; the count that is returned is that 1, unless a
    parent call has a missing allele, where line 215 puts 0. *)
Theorem mendel_uniparental_forced :
  (∀ a, 0 ≤ a → a ∈ p1 → a ∉ p2) →
  (∀ a, 0 ≤ a → count_allele a c = count_allele a p1) ∨
  (∀ a, 0 ≤ a → count_allele a c = count_allele a p2) →
  ∃ t, mendel_errors_trace parents progeny = Ok t
     ∧ mendel_errors parents progeny = Ok (me_final t)
     ∧ cell (me_uniparental t) i j = Some 1
     ∧ cell (me_final t) i j
       = Some (if call_is_missing p1 || call_is_missing p2 then 0 else 1).
Proof.
  intros Hns Heq.
  destruct (mendel_errors_trace_cell _ _ _ _ _ _ _ Hshape Hparents Hcall)
    as (t & Hrun & Hme & Hnn & Hin & _ & Huni & Hfin).
  assert (spec_uniparental (tr_alleles t) p1 p2 c = true) as Hu.
  { unfold spec_uniparental. apply andb_true_intro. split.
    - apply share_no_allele_true. intros a Ha. by apply Hns, Hnn.
    - apply orb_true_iff.
      destruct Heq as [Heq|Heq]; [left|right]; apply bool_decide_eq_true;
        apply allele_counts_eq; intros a Ha; by apply Heq, Hnn. }
  exists t. split; [done|]. split; [done|].
  rewrite Huni, Hfin. unfold spec_mendel_error. rewrite Hu. done.
Qed.

(** C4.  Where a parent call has a missing allele, the error count that is
    returned is 0 for every progeny of the variant: the assignment of line
    215 is the last one made to [me], on top of the value lines 199 and
    210-212 gave the cell. *)
Theorem mendel_parent_missing_zero :
  (∃ a, (a ∈ p1 ∨ a ∈ p2) ∧ a < 0) →
  ∃ t, mendel_errors_trace parents progeny = Ok t
     ∧ mendel_errors parents progeny = Ok (me_final t)
     ∧ me_final t
       = row_mask_assign (me_uniparental t) (parent_missing_mask parents) 0
     ∧ cell (me_final t) i j = Some 0.
Proof.
  intros (a & Ha & Hneg).
  destruct (mendel_errors_trace_cell _ _ _ _ _ _ _ Hshape Hparents Hcall)
    as (t & Hrun & Hme & _ & _ & _ & _ & Hfin).
  exists t. split; [done|]. split; [done|].
  split; [by apply (mendel_errors_trace_stages parents progeny)|].
  rewrite Hfin. unfold spec_mendel_error.
  assert (call_is_missing p1 || call_is_missing p2 = true) as ->; [|done].
  apply orb_true_iff.
  destruct Ha as [Ha|Ha]; [left|right]; apply call_is_missing_spec; eauto.
Qed.

(** The arrays hold no allele that is the largest value of their dtype, so
    that [max_allele + 1] (line 190) does not overflow. *)
Hypothesis Hparents_fit : alleles_below_dtype_max parents = true.
Hypothesis Hprogeny_fit : alleles_below_dtype_max progeny = true.

(** C3, amended.  In arrays that hold no allele equal to the largest value
    of their dtype: where the allele counts of a progeny call are within
    the availability of the parent pair, the base count of the cell is 0,
    and the error count that is returned is 0 unless the uniparental
    override applies (the parents share no allele, the progeny call has
    the allele counts of one of them, and no parent call has a missing
    allele), where it is 1. *)
Theorem mendel_subset_of_availability :
  (∀ a, 0 ≤ a →
        count_allele a c
        ≤ Z.min 1 (count_allele a p1) + Z.min 1 (count_allele a p2)) →
  ∃ t v, mendel_errors_trace parents progeny = Ok t
       ∧ mendel_errors parents progeny = Ok (me_final t)
       ∧ cell (me_base t) i j = Some 0
       ∧ cell (me_final t) i j = Some v
       ∧ (v = 0 ∨ v = 1)
       ∧ (v = 1 ↔
          (∀ a, 0 ≤ a → a ∈ p1 → a ∉ p2) ∧
          ((∀ a, 0 ≤ a → count_allele a c = count_allele a p1) ∨
           (∀ a, 0 ≤ a → count_allele a c = count_allele a p2)) ∧
          call_is_missing p1 = false ∧ call_is_missing p2 = false).
Proof.
  intros Hsub.
  destruct (mendel_errors_trace_cell _ _ _ _ _ _ _ Hshape Hparents Hcall)
    as (t & Hrun & Hme & Hnn & Hin & Hbase & _ & Hfin).
  specialize (Hin Hparents_fit Hprogeny_fit).
  pose proof (universe_of_trace _ _ _ _ _ _ Hrun Hin) as HU.
  assert (spec_base_count (tr_alleles t) p1 p2 c = 0) as H0.
  { apply spec_base_count_zero. intros a Ha. by apply Hsub, Hnn. }
  exists t, (spec_mendel_error (tr_alleles t) p1 p2 c).
  split; [done|]. split; [done|]. rewrite Hbase, H0. split; [done|].
  split; [done|].
  pose proof (spec_uniparental_universe _ _ _ _ HU) as Hiff.
  unfold spec_mendel_error. rewrite H0.
  destruct (call_is_missing p1), (call_is_missing p2),
    (spec_uniparental (tr_alleles t) p1 p2 c); simpl;
    (split; [auto|]);
    (split;
     [ intros Hv; try lia; destruct (proj1 Hiff eq_refl) as [? ?]; by repeat split
     | intros (HA & HB & ? & ?); try done;
       assert (false = true) by (apply Hiff; by split); done ]).
Qed.

(** X15.  In arrays that hold no allele equal to the largest value of
    their dtype, the allele universe is 0, ..., m for the largest entry m
    of the two arrays, and the value of [me] after line 199 (the base
    count) at a cell is: each parent's allele count clipped to at most 1
    and summed across the two parents gives the availability vector; it is
    subtracted from the allele-count vector of the progeny call, negative
    entries are clipped to 0, and the entries are summed. *)
Theorem mendel_base_count_spec :
  ∃ t m, mendel_errors_trace parents progeny = Ok t
     ∧ is_max_allele parents progeny m
     ∧ tr_alleles t = py_range (m + 1)
     ∧ cell (me_base t) i j
       = Some (sumZ (Z.max 0 <$>
                 zip_with Z.sub
                   (allele_counts (py_range (m + 1)) c)
                   ((λ a, Z.min 1 (count_allele a p1) + Z.min 1 (count_allele a p2))
                    <$> py_range (m + 1)))).
Proof.
  destruct (mendel_errors_trace_cell _ _ _ _ _ _ _ Hshape Hparents Hcall)
    as (t & Hrun & _ & _ & _ & Hbase & _).
  destruct (mendel_errors_trace_alleles _ _ _ Hrun) as (pm & gm & Hpm & Hgm & Hn).
  rewrite (scalar_succ_no_overflow parents progeny pm gm) in Hn by done.
  exists t, (Z.max pm gm). split; [done|]. split; [|split; [done|]].
  - split.
    + destruct (Z.max_spec pm gm) as [[_ ->]|[_ ->]].
      * apply amax_elem, elem_of_flatten in Hgm as (i' & j' & c' & Hc' & Hin').
        exists (arr progeny), i', j', c'. auto.
      * apply amax_elem, elem_of_flatten in Hpm as (i' & j' & c' & Hc' & Hin').
        exists (arr parents), i', j', c'. auto.
    + intros g i' j' c' a [-> | ->] Hc' Ha.
      * pose proof (amax_bound _ _ _ _ _ _ Hpm Hc' Ha). lia.
      * pose proof (amax_bound _ _ _ _ _ _ Hgm Hc' Ha). lia.
  - by rewrite Hbase, Hn.
Qed.

End MendelCell.

(** C1.  The base count is not the count of the specification on every
    input: for [int8] arrays that hold the allele 127, [max_allele + 1]
    (line 190) wraps to -128, the list [alleles] is empty, and the base
    count of every cell is 0.  Here both parents are 0/0 and the progeny
    call is 1/1 (the docstring's non-parental case "aa x aa -> bb", with
    two errors): over the alleles 0, ..., 127 the base count is 2, the
    code has 0 after line 199, and it returns 1. *)
Theorem mendel_base_count_overflow :
  let parents :=
    mkArray int8 (genotype_array [[[0; 0]; [0; 0]]; [[127; 127]; [127; 127]]]) in
  let progeny := mkArray int8 (genotype_array [[[1; 1]]; [[127; 127]]]) in
  trio_arrays parents progeny = true
  ∧ (λ t, (tr_alleles t, me_base t, me_final t))
    <$> mendel_errors_trace parents progeny
    = Ok ([], [[0]; [0]], [[1]; [1]])
  ∧ spec_base_count (py_range (127 + 1)) [0; 0] [0; 0] [1; 1] = 2.
Proof. vm_compute. repeat split. Qed.

Lemma mendel_base_count_spec_witness :
  let parents := parents_of doctest_hemiparental in
  let progeny := progeny_of doctest_hemiparental in
  ∃ t m, mendel_errors_trace parents progeny = Ok t
     ∧ is_max_allele parents progeny m
     ∧ tr_alleles t = py_range (m + 1)
     ∧ cell (me_base t) 0 0
       = Some (sumZ (Z.max 0 <$>
                 zip_with Z.sub
                   (allele_counts (py_range (m + 1)) [1; 1])
                   ((λ a, Z.min 1 (count_allele a [0; 0])
                          + Z.min 1 (count_allele a [0; 1]))
                    <$> py_range (m + 1)))).
Proof.
  intros parents progeny.
  apply (mendel_base_count_spec parents progeny 0 0 [0; 0] [0; 1] [1; 1]);
    reflexivity.
Defined.

(** The base count of that cell is 1: the progeny call 1/1 against the
    parents 0/0 and 0/1, of whom one copy of allele 1 is available. *)
Example mendel_base_count_hemiparental :
  (λ t, cell (me_base t) 0 0)
  <$> mendel_errors_trace (parents_of doctest_hemiparental)
                          (progeny_of doctest_hemiparental)
  = Ok (Some 1).
Proof. vm_compute. reflexivity. Qed.

Lemma mendel_uniparental_forced_witness :
  let parents := parents_of doctest_uniparental in
  let progeny := progeny_of doctest_uniparental in
  ∃ t, mendel_errors_trace parents progeny = Ok t
     ∧ mendel_errors parents progeny = Ok (me_final t)
     ∧ cell (me_uniparental t) 0 0 = Some 1
     ∧ cell (me_final t) 0 0 = Some 1.
Proof.
  intros parents progeny.
  apply (mendel_uniparental_forced parents progeny 0 0 [0; 0] [1; 1] [0; 0]).
  - reflexivity.
  - reflexivity.
  - reflexivity.
  - intros a _ H1 H2. rewrite !elem_of_cons, elem_of_nil in H1, H2. lia.
  - left. reflexivity.
Defined.

(** The parents 0/missing and 1/1 share no allele and the progeny call
    0/missing has the allele counts of the first: line 212 sets the cell
    to 1, and line 215 sets it to 0. *)
Example mendel_uniparental_then_missing :
  (λ t, (cell (me_base t) 0 0, cell (me_uniparental t) 0 0, cell (me_final t) 0 0))
  <$> mendel_errors_trace (np_array [[[0; -1]; [1; 1]]])
                          (np_array [[[0; -1]]])
  = Ok (Some 0, Some 1, Some 0).
Proof. vm_compute. reflexivity. Qed.

(** C3, as the specification states it, fails: with parents 0/1 and 2/3 the
    progeny call 0/1 takes one copy of two available alleles, and its error
    count is 1 (the docstring's uniparental case "ab x cd -> ab"). *)
Lemma mendel_subset_not_zero :
  ¬ (∀ (parents progeny : ndarray) i j p1 p2 c me,
       trio_arrays parents progeny = true →
       calls parents !! i = Some [p1; p2] →
       call_at progeny i j = Some c →
       (∀ a, 0 ≤ a →
             count_allele a c
             ≤ Z.min 1 (count_allele a p1) + Z.min 1 (count_allele a p2)) →
       mendel_errors parents progeny = Ok me →
       cell me i j = Some 0).
Proof.
  intros H.
  assert (cell [[1]] 0 0 = Some 0) as Habs; [|done].
  apply (H (np_array [[[0; 1]; [2; 3]]]) (np_array [[[0; 1]]])
           0%nat 0%nat [0; 1] [2; 3] [0; 1] [[1]]); try reflexivity.
  intros a Ha. count_cases.
Qed.

Lemma mendel_subset_of_availability_witness :
  let parents := np_array [[[0; 1]; [1; 2]]] in
  let progeny := np_array [[[0; 2]; [1; 1]]] in
  ∃ t v, mendel_errors_trace parents progeny = Ok t
       ∧ mendel_errors parents progeny = Ok (me_final t)
       ∧ cell (me_base t) 0 1 = Some 0
       ∧ cell (me_final t) 0 1 = Some v
       ∧ (v = 0 ∨ v = 1)
       ∧ (v = 1 ↔
          (∀ a, 0 ≤ a → a ∈ [0; 1] → a ∉ [1; 2]) ∧
          ((∀ a, 0 ≤ a → count_allele a [1; 1] = count_allele a [0; 1]) ∨
           (∀ a, 0 ≤ a → count_allele a [1; 1] = count_allele a [1; 2])) ∧
          call_is_missing [0; 1] = false ∧ call_is_missing [1; 2] = false).
Proof.
  intros parents progeny.
  apply (mendel_subset_of_availability parents progeny 0 1 [0; 1] [1; 2] [1; 1]).
  - reflexivity.
  - reflexivity.
  - reflexivity.
  - reflexivity.
  - reflexivity.
  - intros a Ha. count_cases.
Defined.

(** The uniparental case of the amended C3: within the availability, and
    the count is 1. *)
Example mendel_subset_uniparental :
  mendel_errors (np_array [[[0; 1]; [2; 3]]]) (np_array [[[0; 1]; [0; 2]]])
  = Ok [[1; 0]].
Proof. vm_compute. reflexivity. Qed.

Lemma mendel_parent_missing_zero_witness :
  let parents := np_array [[[0; 0]; [1; -1]]] in
  let progeny := np_array [[[2; 2]; [0; 0]]] in
  ∃ t, mendel_errors_trace parents progeny = Ok t
     ∧ mendel_errors parents progeny = Ok (me_final t)
     ∧ me_final t
       = row_mask_assign (me_uniparental t) (parent_missing_mask parents) 0
     ∧ cell (me_final t) 0 0 = Some 0.
Proof.
  intros parents progeny.
  apply (mendel_parent_missing_zero parents progeny 0 0 [0; 0] [1; -1] [2; 2]).
  - reflexivity.
  - reflexivity.
  - reflexivity.
  - exists (-1). split; [right; apply list_elem_of_In; simpl; tauto | lia].
Defined.

(** In the last witness the cells held 2 and 1 before line 215. *)
Example mendel_parent_missing_overrides :
  (me_uniparental <$> mendel_errors_trace (np_array [[[0; 0]; [1; -1]]])
                                          (np_array [[[2; 2]; [0; 0]]]))
  = Ok [[2; 1]].
Proof. vm_compute. reflexivity. Qed.

(** C9.  A progeny call whose two alleles are both missing does not get
    the error count 0 on every input, as the docstring says it does ("a
    value of 0 is returned for missing calls"): for [int8] arrays that
    hold the allele 127 the list [alleles] is empty, every call has the
    allele counts of every other, and with the parents 0/0 and 127/127,
    neither of them missing, the call missing/missing gets the error
    count 1. *)
Theorem mendel_missing_progeny_overflow :
  let parents := mkArray int8 (genotype_array [[[0; 0]; [127; 127]]]) in
  let progeny := mkArray int8 (genotype_array [[[-1; -1]]]) in
  trio_arrays parents progeny = true
  ∧ (λ t, (tr_alleles t, me_base t, me_uniparental t, me_final t))
    <$> mendel_errors_trace parents progeny
    = Ok ([], [[0]], [[1]], [[1]])
  ∧ mendel_errors parents progeny = Ok [[1]].
Proof. vm_compute. repeat split. Qed.

(** X16.  In arrays that hold no allele equal to the largest value of
    their dtype, a progeny call whose two alleles are both missing gets
    the error count 0, whatever the parents are: its allele counts are
    all 0, so the base count is 0; against parents without a missing
    allele the uniparental assignment does not reach the cell, and where
    a parent has a missing allele line 215 puts 0. *)
Theorem mendel_missing_progeny_zero (parents progeny : ndarray) i j p1 p2 m1 m2 :
  trio_arrays parents progeny = true →
  calls parents !! i = Some [p1; p2] →
  call_at progeny i j = Some [m1; m2] →
  alleles_below_dtype_max parents = true →
  alleles_below_dtype_max progeny = true →
  m1 < 0 → m2 < 0 →
  ∃ t, mendel_errors_trace parents progeny = Ok t
     ∧ mendel_errors parents progeny = Ok (me_final t)
     ∧ cell (me_base t) i j = Some 0
     ∧ (call_is_missing p1 = false → call_is_missing p2 = false →
        cell (me_uniparental t) i j = Some 0)
     ∧ cell (me_final t) i j = Some 0.
Proof.
  intros Ht Hp Hc Hbp Hbg Hm1 Hm2.
  destruct (mendel_errors_trace_cell _ _ _ _ _ _ _ Ht Hp Hc)
    as (t & Hrun & Hme & Hnn & Hin & Hbase & Huni & Hfin).
  specialize (Hin Hbp Hbg).
  assert (∀ a, a ∈ tr_alleles t → count_allele a [m1; m2] = 0) as Hzero.
  { intros a Ha%Hnn. apply count_allele_absent.
    rewrite !elem_of_cons, elem_of_nil. lia. }
  assert (spec_base_count (tr_alleles t) p1 p2 [m1; m2] = 0) as H0.
  { apply spec_base_count_zero. intros a Ha. rewrite (Hzero a Ha).
    pose proof (count_allele_nonneg a p1).
    pose proof (count_allele_nonneg a p2). lia. }
  assert (∀ p, (p = p1 ∨ p = p2) → call_is_missing p = false →
               allele_counts (tr_alleles t) [m1; m2]
               ≠ allele_counts (tr_alleles t) p) as Hne.
  { intros p Hpp Hnm.
    assert (length p = 2%nat) as Hlen.
    { apply trio_arrays_inv in Ht as (Hwp & _ & Hpl & _).
      rewrite <- Hpl.
      destruct Hpp as [->| ->];
        [apply (well_shaped_call parents i 0)|
         apply (well_shaped_call parents i 1)];
        try done; unfold call_at; by rewrite Hp. }
    destruct p as [|x p']; [done|].
    assert (0 ≤ x) as Hx.
    { destruct (decide (0 ≤ x)) as [?|Hn]; [done|].
      assert (call_is_missing (x :: p') = true) as Habs; [|congruence].
      apply call_is_missing_spec. exists x. split; [by left|lia]. }
    assert (x ∈ tr_alleles t) as Hxin.
    { apply Hin; [done|].
      destruct Hpp as [<- | <-]; [left|right; left]; by left. }
    apply (allele_counts_neq _ _ _ x Hxin). rewrite (Hzero x Hxin).
    assert (0 < count_allele x (x :: p')); [|lia].
    apply count_allele_pos. by left. }
  assert (call_is_missing p1 = false → call_is_missing p2 = false →
          spec_uniparental (tr_alleles t) p1 p2 [m1; m2] = false) as Hu.
  { intros E1 E2. unfold spec_uniparental.
    apply andb_false_intro2, orb_false_intro;
      apply bool_decide_eq_false; apply Hne; auto. }
  exists t. split; [done|]. split; [done|].
  rewrite Hbase, Huni, Hfin, H0. split; [done|]. split.
  - intros E1 E2. by rewrite (Hu E1 E2).
  - unfold spec_mendel_error. rewrite H0.
    destruct (call_is_missing p1) eqn:E1; [done|].
    destruct (call_is_missing p2) eqn:E2; [done|]. simpl.
    by rewrite Hu.
Qed.

Lemma mendel_missing_progeny_zero_witness :
  let parents := parents_of doctest_consistent in
  let progeny := progeny_of doctest_consistent in
  ∃ t, mendel_errors_trace parents progeny = Ok t
     ∧ mendel_errors parents progeny = Ok (me_final t)
     ∧ cell (me_base t) 3 2 = Some 0
     ∧ (call_is_missing [0; 0] = false → call_is_missing [0; 1] = false →
        cell (me_uniparental t) 3 2 = Some 0)
     ∧ cell (me_final t) 3 2 = Some 0.
Proof.
  intros parents progeny.
  apply (mendel_missing_progeny_zero parents progeny
           3%nat 2%nat [0; 0] [0; 1] (-1) (-1)).
  - reflexivity.
  - reflexivity.
  - reflexivity.
  - reflexivity.
  - reflexivity.
  - lia.
  - lia.
Defined.

(** A progeny call with one missing allele can score: with both parents
    0/0 the call 1/missing has the error count 1. *)
Example mendel_half_missing_progeny :
  mendel_errors (np_array [[[0; 0]; [0; 0]]]) (np_array [[[1; -1]]]) = Ok [[1]].
Proof. vm_compute. reflexivity. Qed.

(** ** The transmission painter *)

Lemma transmission_masks_cell parents progeny i j a1 a2 h :
  parents !! i = Some [a1; a2] →
  cell progeny i j = Some h →
  let m := transmission_masks parents progeny in
  let callable := negb (h <? 0) && negb ((a1 <? 0) || (a2 <? 0)) in
  cell (progeny_is_missing m) i j = Some (h <? 0) ∧
  parent_is_missing m !! i = Some ((a1 <? 0) || (a2 <? 0)) ∧
  cell (inherit_parent1 m) i j = Some (callable && is_het [a1; a2] && (h =? a1)) ∧
  cell (inherit_parent2 m) i j = Some (callable && is_het [a1; a2] && (h =? a2)) ∧
  cell (nonseg_ref m) i j = Some (callable && is_hom_ref [a1; a2] && (h =? a1)) ∧
  cell (nonseg_alt m) i j = Some (callable && is_hom_alt [a1; a2] && (h =? a1)) ∧
  cell (nonparental m) i j = Some (callable && negb (h =? a1) && negb (h =? a2)).
Proof.
  intros Hp Hc. unfold transmission_masks. cbv zeta. simpl.
  unfold column.
  rewrite ?cell_zip2d, ?cell_broadcast_col, ?cell_fmap, ?list_lookup_fmap, Hp, Hc.
  simpl. rewrite ?orb_false_r. done.
Qed.

Lemma paint_transmission_cell parents progeny i j a1 a2 h :
  n_haplotypes parents = 2%nat →
  haplotypes parents !! i = Some [a1; a2] →
  cell (haplotypes progeny) i j = Some h →
  ∃ painting, paint_transmission parents progeny = Ok painting
            ∧ cell painting i j = Some (spec_paint_state a1 a2 h).
Proof.
  intros Hn Hp Hc. unfold paint_transmission. rewrite Hn.
  eexists. split; [reflexivity|]. cbv zeta.
  destruct (transmission_masks_cell _ _ _ _ _ _ _ Hp Hc)
    as (Hm7 & Hm6 & Hm1 & Hm2 & Hm3 & Hm4 & Hm5).
  rewrite cell_mask_assign, cell_row_mask_assign, !cell_mask_assign, cell_fmap.
  rewrite Hc, Hm1, Hm2, Hm3, Hm4, Hm5, Hm6, Hm7. simpl.
  reflexivity.
Qed.

Lemma paint_transmission_cell_inv parents progeny painting i j v :
  paint_transmission parents progeny = Ok painting →
  cell painting i j = Some v →
  is_Some (cell (haplotypes progeny) i j).
Proof.
  unfold paint_transmission.
  destruct (bool_decide (n_haplotypes parents ≠ 2%nat)); [done|].
  cbn [mbind result_bind]. intros [= <-].
  rewrite cell_mask_assign, cell_row_mask_assign, !cell_mask_assign.
  rewrite (cell_fmap (λ _, INHERIT_UNDETERMINED)).
  destruct (cell (haplotypes progeny) i j); [by eexists|done].
Qed.

Lemma haplotype_arrays_row parents progeny i j h :
  haplotype_arrays parents progeny = true →
  cell (haplotypes progeny) i j = Some h →
  n_haplotypes parents = 2%nat ∧
  ∃ a1 a2, haplotypes parents !! i = Some [a1; a2].
Proof.
  unfold haplotype_arrays, h_well_shaped.
  rewrite !andb_true_iff, !bool_decide_eq_true.
  intros ((((Hlp & Hrp) & (Hlg & _)) & Hn) & Hv) Hc.
  split; [done|].
  assert (i < length (haplotypes parents))%nat as Hi.
  { rewrite Hlp, Hv, <- Hlg. unfold cell in Hc.
    destruct (haplotypes progeny !! i) eqn:E; [|done].
    by eapply lookup_lt_Some. }
  apply lookup_lt_is_Some in Hi as [row Hrow].
  rewrite forallb_forall in Hrp.
  pose proof (Hrp row) as Hlen. rewrite bool_decide_eq_true, Hn in Hlen.
  specialize (Hlen ltac:(by eapply list_elem_of_In, list_elem_of_lookup_2)).
  destruct row as [|a1 [|a2 [|]]]; try done. by exists a1, a2.
Qed.

Lemma spec_paint_state_range a1 a2 h : 0 ≤ spec_paint_state a1 a2 h ≤ 7.
Proof.
  unfold spec_paint_state. cbv zeta.
  repeat match goal with
         | |- context [if ?b then _ else _] => destruct b
         end; done.
Qed.

(** C5.  For parental haplotypes of shape (n_variants, 2) and progeny
    haplotypes of shape (n_variants, n_progeny), [paint_transmission]
    returns an array of the shape of the progeny whose entries are all
    among the codes 0 to 7, and the entry of a cell whose progeny allele is
    missing is 7, whatever the parental haplotypes are. *)
Theorem paint_transmission_codes parents progeny :
  haplotype_arrays parents progeny = true →
  ∃ painting, paint_transmission parents progeny = Ok painting
    ∧ (∀ i j, is_Some (cell painting i j)
              ↔ is_Some (cell (haplotypes progeny) i j))
    ∧ (∀ i j v, cell painting i j = Some v → 0 ≤ v ≤ 7)
    ∧ (∀ i j h, cell (haplotypes progeny) i j = Some h → h < 0 →
                cell painting i j = Some 7).
Proof.
  intros Ha.
  assert (∃ painting, paint_transmission parents progeny = Ok painting)
    as [painting Hrun].
  { unfold paint_transmission.
    unfold haplotype_arrays in Ha.
    rewrite !andb_true_iff, !bool_decide_eq_true in Ha.
    destruct Ha as ((_ & ->) & _). simpl. by eexists. }
  assert (∀ i j h, cell (haplotypes progeny) i j = Some h →
            ∃ a1 a2, cell painting i j = Some (spec_paint_state a1 a2 h))
    as Hcell.
  { intros i j h Hc.
    destruct (haplotype_arrays_row _ _ _ _ _ Ha Hc) as (Hn & a1 & a2 & Hp).
    destruct (paint_transmission_cell _ _ _ _ _ _ _ Hn Hp Hc) as (p' & Hrun' & Hv).
    rewrite Hrun in Hrun'. injection Hrun' as <-. eauto. }
  exists painting. split; [done|]. split; [|split].
  - intros i j. split.
    + intros [v Hv]. by eapply paint_transmission_cell_inv.
    + intros [h Hc]. destruct (Hcell _ _ _ Hc) as (a1 & a2 & ->). by eexists.
  - intros i j v Hv.
    destruct (paint_transmission_cell_inv _ _ _ _ _ _ Hrun Hv) as [h Hc].
    destruct (Hcell _ _ _ Hc) as (a1 & a2 & Hv').
    rewrite Hv in Hv'. injection Hv' as ->. apply spec_paint_state_range.
  - intros i j h Hc Hneg.
    destruct (Hcell _ _ _ Hc) as (a1 & a2 & ->).
    unfold spec_paint_state.
    by destruct (Z.ltb_spec h 0); [|lia].
Qed.

Lemma paint_transmission_codes_witness :
  let parents := haplotype_array (take 2 <$> doctest_haplotypes) in
  let progeny := haplotype_array (drop 2 <$> doctest_haplotypes) in
  haplotype_arrays parents progeny = true ∧
  ∃ painting, paint_transmission parents progeny = Ok painting
    ∧ (∀ i j, is_Some (cell painting i j)
              ↔ is_Some (cell (haplotypes progeny) i j))
    ∧ (∀ i j v, cell painting i j = Some v → 0 ≤ v ≤ 7)
    ∧ (∀ i j h, cell (haplotypes progeny) i j = Some h → h < 0 →
                cell painting i j = Some 7).
Proof.
  intros parents progeny. split; [reflexivity|].
  apply (paint_transmission_codes parents progeny). reflexivity.
Defined.

Lemma is_het_not_hom_ref call : is_het call = true → is_hom_ref call = false.
Proof.
  unfold is_het, is_hom_ref.
  intros [_ (a & Ha & Hne)%existsb_exists]%andb_prop.
  apply not_true_is_false. intros Hall. rewrite forallb_forall in Hall.
  destruct call as [|x call]; [done|]. simpl in *.
  pose proof (Hall x (or_introl eq_refl)) as Hx.
  pose proof (Hall a (or_intror Ha)) as Ha0.
  apply Z.eqb_eq in Hx, Ha0. subst.
  by rewrite Z.eqb_refl in Hne.
Qed.

Lemma is_het_not_hom_alt call : is_het call = true → is_hom_alt call = false.
Proof.
  unfold is_het, is_hom_alt.
  intros [_ (a & Ha & Hne)%existsb_exists]%andb_prop.
  apply not_true_is_false. intros [_ Hall]%andb_prop.
  rewrite forallb_forall in Hall. rewrite (Hall a Ha) in Hne. done.
Qed.

Lemma cell_zip2d_andb_true a b i j :
  cell (zip2d andb a b) i j = Some true →
  cell a i j = Some true ∧ cell b i j = Some true.
Proof.
  rewrite cell_zip2d.
  destruct (cell a i j) as [[]|], (cell b i j) as [[]|]; by simpl.
Qed.

Lemma cell_broadcast_col_andb_true a (col : list bool) i j :
  cell (broadcast_col andb a col) i j = Some true →
  cell a i j = Some true ∧ col !! i = Some true.
Proof.
  rewrite cell_broadcast_col.
  destruct (cell a i j) as [[]|], (col !! i) as [[]|]; by simpl.
Qed.

(** The parent is het wherever state 1 or 2 holds, hom-ref wherever state 3
    holds and hom-alt wherever state 4 holds. *)
Lemma inherit_parent_het parents progeny i j :
  let m := transmission_masks parents progeny in
  cell (inherit_parent1 m) i j = Some true ∨
  cell (inherit_parent2 m) i j = Some true →
  ∃ row, parents !! i = Some row ∧ is_het row = true.
Proof.
  unfold transmission_masks. cbv zeta. cbn [inherit_parent1 inherit_parent2].
  intros [H|H];
    apply cell_zip2d_andb_true in H as [H _];
    apply cell_broadcast_col_andb_true in H as [_ H];
    rewrite list_lookup_fmap in H;
    (destruct (parents !! i) as [row|]; [|done]);
    exists row; (split; [done|]); by injection H.
Qed.

Lemma nonseg_hom parents progeny i j :
  let m := transmission_masks parents progeny in
  (cell (nonseg_ref m) i j = Some true →
   ∃ row, parents !! i = Some row ∧ is_hom_ref row = true) ∧
  (cell (nonseg_alt m) i j = Some true →
   ∃ row, parents !! i = Some row ∧ is_hom_alt row = true).
Proof.
  unfold transmission_masks. cbv zeta. cbn [nonseg_ref nonseg_alt].
  split; intros H;
    apply cell_zip2d_andb_true in H as [H _];
    apply cell_broadcast_col_andb_true in H as [_ H];
    rewrite list_lookup_fmap in H;
    (destruct (parents !! i) as [row|]; [|done]);
    exists row; (split; [done|]); by injection H.
Qed.

(** C6.  At a cell where the mask of state 1 or the mask of state 2 holds,
    neither the mask of state 3 nor the mask of state 4 holds: the first
    two ask for a het parent, the other two for a hom-ref and a hom-alt
    parent, and a call is not both. *)
Theorem paint_segregating_excludes_nonseg parents progeny i j :
  let m := transmission_masks parents progeny in
  cell (inherit_parent1 m) i j = Some true ∨
  cell (inherit_parent2 m) i j = Some true →
  cell (nonseg_ref m) i j ≠ Some true ∧ cell (nonseg_alt m) i j ≠ Some true.
Proof.
  intros m (row & Hrow & Hhet)%inherit_parent_het.
  destruct (nonseg_hom parents progeny i j) as [Hr Ha].
  split.
  - intros (row' & Hrow' & Hhom)%Hr.
    rewrite Hrow in Hrow'. injection Hrow' as <-.
    by rewrite (is_het_not_hom_ref _ Hhet) in Hhom.
  - intros (row' & Hrow' & Hhom)%Ha.
    rewrite Hrow in Hrow'. injection Hrow' as <-.
    by rewrite (is_het_not_hom_alt _ Hhet) in Hhom.
Qed.

Lemma paint_segregating_excludes_nonseg_witness :
  let m := transmission_masks [[0; 1]] [[0; 1; 2]] in
  (cell (inherit_parent1 m) 0 0 = Some true ∨
   cell (inherit_parent2 m) 0 0 = Some true) ∧
  cell (nonseg_ref m) 0 0 ≠ Some true ∧ cell (nonseg_alt m) 0 0 ≠ Some true.
Proof.
  intros m. split; [left; reflexivity|].
  apply (paint_segregating_excludes_nonseg [[0; 1]] [[0; 1; 2]] 0 0).
  left. reflexivity.
Defined.

(** Each of the four masks holds somewhere, so the exclusion is not void. *)
Example paint_masks_inhabited :
  let m := transmission_masks [[0; 1]; [0; 0]; [1; 1]] [[0; 1]; [0; 0]; [1; 1]] in
  cell (inherit_parent1 m) 0 0 = Some true ∧
  cell (inherit_parent2 m) 0 1 = Some true ∧
  cell (nonseg_ref m) 1 0 = Some true ∧
  cell (nonseg_alt m) 2 0 = Some true.
Proof. repeat split. Qed.

(** ** Running the phaser *)

Lemma bind_run {A B} (m : M A) (f : A → M B) σ x σ' :
  m σ = (Ok x, σ') → (m ≫= f) σ = f x σ'.
Proof. intros H. unfold mbind, M_bind. by rewrite H. Qed.

Lemma bind_raise {A B} (m : M A) (f : A → M B) σ e σ' :
  m σ = (Raise e, σ') → (m ≫= f) σ = (Raise e, σ').
Proof. intros H. unfold mbind, M_bind. by rewrite H. Qed.

Lemma read_run g σ a : σ !! g = Some a → read g σ = (Ok a, σ).
Proof. intros H. unfold read. by rewrite H. Qed.

Lemma fresh_lookup (σ : gmap positive ndarray) : σ !! fresh (dom σ) = None.
Proof. apply not_elem_of_dom, is_fresh. Qed.

Lemma astype_run g σ a :
  σ !! g = Some a →
  ∃ g' σ', astype int8 g σ = (Ok g', σ')
    ∧ σ' !! g' = Some (as_int8 a)
    ∧ (∀ l, l ≠ g' → σ' !! l = σ !! l)
    ∧ (if bool_decide (arr_dtype a = int8) then g' = g ∧ σ' = σ
       else σ !! g' = None).
Proof.
  intros H. unfold astype, as_int8.
  rewrite (bind_run _ _ _ _ _ (read_run _ _ _ H)).
  destruct (decide (arr_dtype a = int8)) as [e|n].
  - exists g, σ. rewrite (bool_decide_eq_true_2 _ e). by repeat split.
  - eexists _, _. split; [reflexivity|]. rewrite (bool_decide_eq_false_2 _ n).
    split; [apply lookup_insert_eq|].
    split; [|apply fresh_lookup].
    intros l Hl. by apply lookup_insert_ne.
Qed.

Lemma phase_int8_run phase_buffer g σ a :
  σ !! g = Some a →
  phase_progeny_by_transmission_int8 phase_buffer g σ
  = (Ok (phase_buffer (calls (arr a))).2, <[g := phased_array phase_buffer a]> σ).
Proof.
  intros H. unfold phase_progeny_by_transmission_int8.
  rewrite (bind_run _ _ _ _ _ (read_run _ _ _ H)).
  unfold phased_array. by destruct (phase_buffer (calls (arr a))).
Qed.

Lemma as_int8_dtype a : arr_dtype (as_int8 a) = int8.
Proof. unfold as_int8. by destruct (decide (arr_dtype a = int8)). Qed.

Lemma phase_run phase_buffer g copy σ a :
  σ !! g = Some a → ploidy (arr a) = 2%nat → (3 ≤ n_samples (arr a))%nat →
  ∃ g' σ',
    phase_progeny_by_transmission phase_buffer g copy σ
    = (Ok (g', view_bool (phase_buffer (calls (arr (as_int8 a)))).2), σ')
    ∧ σ' !! g' = Some (phased_array phase_buffer (as_int8 a))
    ∧ (∀ l, l ≠ g' → is_Some (σ !! l) → σ' !! l = σ !! l)
    ∧ (if copy || negb (bool_decide (arr_dtype a = int8))
       then σ !! g' = None else g' = g).
Proof.
  intros Hg Hpl Hns. unfold phase_progeny_by_transmission.
  rewrite (bind_run _ _ _ _ _ (read_run _ _ _ Hg)).
  rewrite Hpl. rewrite (bool_decide_eq_false_2 (2 ≠ 2)%nat) by auto.
  rewrite (bind_run _ _ σ () σ) by done.
  rewrite (bool_decide_eq_false_2 (n_samples (arr a) < 3)%nat) by lia.
  rewrite (bind_run _ _ σ () σ) by done.
  destruct copy.
  - (* [g.copy()] gives a new array *)
    set (g1 := fresh (dom σ)). set (σ1 := <[g1 := a]> σ).
    assert (ndarray_copy g σ = (Ok g1, σ1)) as Hcopy.
    { unfold ndarray_copy. by rewrite (bind_run _ _ _ _ _ (read_run _ _ _ Hg)). }
    rewrite (bind_run _ _ _ _ _ Hcopy).
    assert (σ1 !! g1 = Some a) as Hg1 by apply lookup_insert_eq.
    assert (σ !! g1 = None) as Hfresh by apply fresh_lookup.
    destruct (astype_run g1 σ1 a Hg1) as (g2 & σ2 & Hast & Hg2 & Hother & Hcase).
    rewrite (bind_run _ _ _ _ _ Hast).
    rewrite (bind_run _ _ _ _ _ (phase_int8_run phase_buffer _ _ _ Hg2)).
    eexists _, _. split; [reflexivity|].
    split; [apply lookup_insert_eq|]. simpl. split.
    + intros l Hl [x Hx]. rewrite lookup_insert_ne by done.
      rewrite Hother by done. subst σ1. apply lookup_insert_ne. congruence.
    + destruct (bool_decide (arr_dtype a = int8)).
      * by destruct Hcase as [-> _].
      * destruct (decide (g2 = g1)) as [->|Hne]; [done|].
        subst σ1. by rewrite lookup_insert_ne in Hcase.
  - rewrite (bind_run _ _ σ g σ) by done.
    destruct (astype_run g σ a Hg) as (g2 & σ2 & Hast & Hg2 & Hother & Hcase).
    rewrite (bind_run _ _ _ _ _ Hast).
    rewrite (bind_run _ _ _ _ _ (phase_int8_run phase_buffer _ _ _ Hg2)).
    eexists _, _. split; [reflexivity|].
    split; [apply lookup_insert_eq|]. simpl. split.
    + intros l Hl _. rewrite lookup_insert_ne by done. by apply Hother.
    + destruct (bool_decide (arr_dtype a = int8)); simpl; [|done].
      by destruct Hcase.
Qed.

(** ** Validation errors *)

(** C7.  A violated precondition is the first thing each component
    reports, whatever else holds of its input: [mendel_errors] raises the
    diploid-only error when a ploidy is not 2, [paint_transmission] raises
    its ValueError when the parent does not have two haplotypes, and
    [phase_progeny_by_transmission] raises the diploid-only error when the
    ploidy is not 2 and its ValueError when there are fewer than three
    samples.  No result comes with the error, and the phaser leaves the
    store as it found it: no array is created and none is written. *)
Theorem precondition_errors_first :
  (∀ parents progeny : ndarray,
     ploidy parents ≠ 2%nat ∨ ploidy progeny ≠ 2%nat →
     mendel_errors parents progeny = err_diploid_only)
  ∧ (∀ parents progeny,
       n_haplotypes parents ≠ 2%nat →
       paint_transmission parents progeny
       = Raise (ValueError "exactly two parental haplotypes should be provided"))
  ∧ (∀ phase_buffer g copy (σ : gmap positive ndarray) a,
       σ !! g = Some a → ploidy (arr a) ≠ 2%nat →
       phase_progeny_by_transmission phase_buffer g copy σ
       = (err_diploid_only, σ))
  ∧ (∀ phase_buffer g copy (σ : gmap positive ndarray) a,
       σ !! g = Some a → ploidy (arr a) = 2%nat →
       (n_samples (arr a) < 3)%nat →
       phase_progeny_by_transmission phase_buffer g copy σ
       = (Raise (ValueError
            ("bad genotypes: at least three samples required (2 parents and 1 or more progeny); found "
             +:+ pretty (n_samples (arr a)))), σ)).
Proof.
  split; [|split; [|split]].
  - intros parents progeny H. unfold mendel_errors, mendel_errors_trace.
    assert (bool_decide (ploidy parents ≠ 2%nat)
            || bool_decide (ploidy progeny ≠ 2%nat) = true) as ->; [|done].
    apply orb_true_iff. destruct H; [left|right]; by apply bool_decide_eq_true.
  - intros parents progeny H. unfold paint_transmission.
    by rewrite (bool_decide_eq_true_2 _ H).
  - intros phase_buffer g copy σ a Hg H. unfold phase_progeny_by_transmission.
    rewrite (bind_run _ _ _ _ _ (read_run _ _ _ Hg)).
    rewrite (bool_decide_eq_true_2 _ H). by apply bind_raise.
  - intros phase_buffer g copy σ a Hg Hpl H. unfold phase_progeny_by_transmission.
    rewrite (bind_run _ _ _ _ _ (read_run _ _ _ Hg)).
    rewrite Hpl. rewrite (bool_decide_eq_false_2 (2 ≠ 2)%nat) by auto.
    rewrite (bind_run _ _ σ () σ) by done.
    rewrite (bool_decide_eq_true_2 _ H). by apply bind_raise.
Qed.

Lemma precondition_errors_first_witness :
  let triploid := mkGenotypeArray 1 3 3 [[[0; 0; 0]; [0; 0; 1]; [0; 1; 1]]] in
  let pair := genotype_array [[[0; 0]; [0; 1]]] in
  mendel_errors (mkArray int8 triploid) (mkArray int8 pair) = err_diploid_only
  ∧ paint_transmission (haplotype_array [[0; 1; 1]]) (haplotype_array [[0]])
    = Raise (ValueError "exactly two parental haplotypes should be provided")
  ∧ phase_progeny_by_transmission phase_buffer_spec 1%positive false
      {[ 1%positive := mkArray int8 triploid ]}
    = (err_diploid_only, {[ 1%positive := mkArray int8 triploid ]})
  ∧ phase_progeny_by_transmission phase_buffer_spec 1%positive false
      {[ 1%positive := mkArray int8 pair ]}
    = (Raise (ValueError
         ("bad genotypes: at least three samples required (2 parents and 1 or more progeny); found "
          +:+ pretty 2%nat)), {[ 1%positive := mkArray int8 pair ]}).
Proof.
  intros triploid pair.
  destruct precondition_errors_first as (H1 & H2 & H3 & H4).
  split; [|split; [|split]].
  - apply (H1 (mkArray int8 triploid) (mkArray int8 pair)). left. simpl. lia.
  - apply (H2 (haplotype_array [[0; 1; 1]]) (haplotype_array [[0]])). simpl. lia.
  - apply (H3 phase_buffer_spec 1%positive false
              {[ 1%positive := mkArray int8 triploid ]} (mkArray int8 triploid)).
    + reflexivity.
    + simpl. lia.
  - apply (H4 phase_buffer_spec 1%positive false
              {[ 1%positive := mkArray int8 pair ]} (mkArray int8 pair)).
    + reflexivity.
    + reflexivity.
    + simpl. lia.
Defined.

(** ** The progeny phaser *)

Lemma phase_variant_flags row j z :
  (phase_variant row).2 !! j = Some z → z ≠ 0 → (2 ≤ j)%nat.
Proof.
  unfold phase_variant. destruct row as [|p1 [|p2 progeny]]; simpl.
  - done.
  - destruct j as [|j]; simpl; [by intros [= <-]|done].
  - destruct j as [|[|j]]; simpl; [by intros [= <-]..|lia].
Qed.

Lemma phase_variant_parents row :
  (2 ≤ length row)%nat →
  (phase_variant row).2 !! 0%nat = Some 0 ∧ (phase_variant row).2 !! 1%nat = Some 0.
Proof.
  unfold phase_variant. destruct row as [|p1 [|p2 progeny]]; simpl; [lia..|done].
Qed.

Lemma cell_phase_buffer_spec buf i j :
  cell (view_bool (phase_buffer_spec buf).2) i j
  = (row ← buf !! i; z ← (phase_variant row).2 !! j; Some (negb (z =? 0))).
Proof.
  unfold view_bool. rewrite cell_fmap. unfold cell, phase_buffer_spec. simpl.
  rewrite !list_lookup_fmap.
  destruct (buf !! i) as [row|]; simpl; [|done].
  by destruct ((phase_variant row).2 !! j).
Qed.

Lemma as_int8_row a i row :
  calls (arr a) !! i = Some row →
  ∃ row', calls (arr (as_int8 a)) !! i = Some row' ∧ length row' = length row.
Proof.
  intros H. unfold as_int8. destruct (decide (arr_dtype a = int8)); [eauto|].
  simpl. rewrite list_lookup_fmap, H. simpl. eexists. split; [done|].
  apply length_fmap.
Qed.

Lemma well_shaped_row g i :
  well_shaped g = true → (i < n_variants g)%nat →
  ∃ row, calls g !! i = Some row ∧ length row = n_samples g.
Proof.
  unfold well_shaped. intros [Hl%bool_decide_eq_true H]%andb_prop Hi.
  rewrite <- Hl in Hi. apply lookup_lt_is_Some in Hi as [row Hrow].
  exists row. split; [done|]. rewrite forallb_forall in H.
  apply list_elem_of_lookup_2, list_elem_of_In, H in Hrow.
  apply andb_prop in Hrow as [Hrow _]. by apply bool_decide_eq_true in Hrow.
Qed.

(** C8.  For a genotype array of shape (n_variants, n_samples, 2) with at
    least three samples the phaser returns, and in the boolean array it
    returns the columns of the two parents are false at every variant; an
    entry that is true is in a progeny column. *)
Theorem phase_parents_unphased g copy (σ : gmap positive ndarray) a :
  σ !! g = Some a →
  well_shaped (arr a) = true →
  ploidy (arr a) = 2%nat →
  (3 ≤ n_samples (arr a))%nat →
  ∃ g' is_phased σ',
    phase_progeny_by_transmission phase_buffer_spec g copy σ
    = (Ok (g', is_phased), σ')
    ∧ (∀ i, (i < n_variants (arr a))%nat →
            cell is_phased i 0 = Some false ∧ cell is_phased i 1 = Some false)
    ∧ (∀ i j, cell is_phased i j = Some true → (2 ≤ j)%nat).
Proof.
  intros Hg Hws Hpl Hns.
  destruct (phase_run phase_buffer_spec g copy σ a Hg Hpl Hns)
    as (g' & σ' & Hrun & _).
  eexists _, _, _. split; [exact Hrun|]. split.
  - intros i Hi.
    destruct (well_shaped_row _ _ Hws Hi) as (row & Hrow & Hlen).
    destruct (as_int8_row _ _ _ Hrow) as (row' & Hrow' & Hlen').
    rewrite !cell_phase_buffer_spec, Hrow'. simpl.
    destruct (phase_variant_parents row') as [-> ->]; [lia|done].
  - intros i j. rewrite cell_phase_buffer_spec.
    destruct (calls (arr (as_int8 a)) !! i) as [row|]; simpl; [|done].
    destruct ((phase_variant row).2 !! j) as [z|] eqn:Hz; simpl; [|done].
    intros [= Hne]. apply (phase_variant_flags row j z Hz).
    intros ->. done.
Qed.

Lemma phase_parents_unphased_witness :
  let σ : gmap positive ndarray :=
    {[ 1%positive := mkArray int8 (genotype_array doctest_trios) ]} in
  ∃ g' is_phased σ',
    phase_progeny_by_transmission phase_buffer_spec 1%positive false σ
    = (Ok (g', is_phased), σ')
    ∧ (∀ i, (i < 14)%nat →
            cell is_phased i 0 = Some false ∧ cell is_phased i 1 = Some false)
    ∧ (∀ i j, cell is_phased i j = Some true → (2 ≤ j)%nat).
Proof.
  intros σ.
  apply (phase_parents_unphased 1%positive false σ
           (mkArray int8 (genotype_array doctest_trios))).
  - reflexivity.
  - reflexivity.
  - reflexivity.
  - simpl. lia.
Defined.

(** C10.  The array the phaser returns has dtype [int8].  When the dtype
    of the input is not [int8], the array that is phased and returned is a
    new one, and the array of the caller is left as it was, also with
    [copy=False]; the array of the caller is written only when [copy] is
    false and its dtype is [int8], where the returned array is the array
    of the caller.  No other array of the store changes. *)
Theorem phase_in_place_only_int8 phase_buffer g copy (σ : gmap positive ndarray) a :
  σ !! g = Some a →
  ploidy (arr a) = 2%nat →
  (3 ≤ n_samples (arr a))%nat →
  ∃ g' is_phased σ' a',
    phase_progeny_by_transmission phase_buffer g copy σ
    = (Ok (g', is_phased), σ')
    ∧ σ' !! g' = Some a' ∧ arr_dtype a' = int8
    ∧ (arr_dtype a ≠ int8 → σ !! g' = None ∧ σ' !! g = Some a)
    ∧ (σ' !! g ≠ Some a → copy = false ∧ arr_dtype a = int8 ∧ g' = g)
    ∧ (∀ l, l ≠ g' → is_Some (σ !! l) → σ' !! l = σ !! l).
Proof.
  intros Hg Hpl Hns.
  destruct (phase_run phase_buffer g copy σ a Hg Hpl Hns)
    as (g' & σ' & Hrun & Hg' & Hother & Hcase).
  eexists _, _, _, _. split; [exact Hrun|]. split; [exact Hg'|].
  split; [apply as_int8_dtype|].
  assert (σ !! g' = None → σ' !! g = Some a) as Hkeep.
  { intros Hnone. rewrite Hother; [done| |by eexists]. congruence. }
  split; [|split; [|done]].
  - intros Hdt. rewrite (bool_decide_eq_false_2 _ Hdt), orb_true_r in Hcase.
    auto.
  - intros Hmut. destruct copy; simpl in Hcase; [by apply Hkeep in Hcase|].
    destruct (bool_decide (arr_dtype a = int8)) eqn:E; simpl in Hcase.
    + by apply bool_decide_eq_true in E.
    + by apply Hkeep in Hcase.
Qed.

Lemma phase_in_place_only_int8_witness :
  let a := mkArray int16 (genotype_array [[[1; 1]; [0; 0]; [0; 1]]]) in
  let σ : gmap positive ndarray := {[ 1%positive := a ]} in
  ∃ g' is_phased σ' a',
    phase_progeny_by_transmission phase_buffer_spec 1%positive false σ
    = (Ok (g', is_phased), σ')
    ∧ σ' !! g' = Some a' ∧ arr_dtype a' = int8
    ∧ (arr_dtype a ≠ int8 → σ !! g' = None ∧ σ' !! 1%positive = Some a)
    ∧ (σ' !! 1%positive ≠ Some a →
       false = false ∧ arr_dtype a = int8 ∧ g' = 1%positive)
    ∧ (∀ l, l ≠ g' → is_Some (σ !! l) → σ' !! l = σ !! l).
Proof.
  intros a σ.
  apply (phase_in_place_only_int8 phase_buffer_spec 1%positive false σ a).
  - reflexivity.
  - reflexivity.
  - simpl. lia.
Defined.

(** With [copy=False] an [int16] array is left as it was, and the phased
    [int8] array is a new one; an [int8] array is phased where it is. *)
Example phase_int16_not_in_place :
  phase_progeny_by_transmission phase_buffer_spec 1%positive false
    {[ 1%positive := mkArray int16 (genotype_array [[[1; 1]; [0; 0]; [0; 1]]]) ]}
  = (Ok (2%positive, [[false; false; true]]),
     {[ 1%positive := mkArray int16 (genotype_array [[[1; 1]; [0; 0]; [0; 1]]]);
        2%positive := mkArray int8 (genotype_array [[[1; 1]; [0; 0]; [1; 0]]]) ]}).
Proof. vm_compute. reflexivity. Qed.

Example phase_int8_in_place :
  phase_progeny_by_transmission phase_buffer_spec 1%positive false
    {[ 1%positive := mkArray int8 (genotype_array [[[1; 1]; [0; 0]; [0; 1]]]) ]}
  = (Ok (1%positive, [[false; false; true]]),
     {[ 1%positive := mkArray int8 (genotype_array [[[1; 1]; [0; 0]; [1; 0]]]) ]}).
Proof. vm_compute. reflexivity. Qed.

Example phase_int8_copy :
  phase_progeny_by_transmission phase_buffer_spec 1%positive true
    {[ 1%positive := mkArray int8 (genotype_array [[[1; 1]; [0; 0]; [0; 1]]]) ]}
  = (Ok (2%positive, [[false; false; true]]),
     {[ 1%positive := mkArray int8 (genotype_array [[[1; 1]; [0; 0]; [0; 1]]]);
        2%positive := mkArray int8 (genotype_array [[[1; 1]; [0; 0]; [1; 0]]]) ]}).
Proof. vm_compute. reflexivity. Qed.

(** * Further properties of the three functions *)

(** ** [mendel_errors]: shape and range of the result *)

Lemma mendel_errors_trace_universe (parents progeny : ndarray) t :
  mendel_errors_trace parents progeny = Ok t →
  ∃ n, tr_alleles t = py_range n.
Proof.
  unfold mendel_errors_trace.
  destruct (bool_decide (ploidy parents ≠ 2%nat) || bool_decide (ploidy progeny ≠ 2%nat));
    [done|]. simpl.
  destruct (amax parents); [|done]. simpl.
  destruct (amax progeny); [|done]. simpl.
  destruct (index_axis1 _ 0 _); [|done]. simpl.
  destruct (index_axis1 _ 1 _); [|done]. simpl.
  intros [= <-]. by eexists.
Qed.

Lemma base_errors_cell_inv n parent_gc progeny_gc i j :
  is_Some (cell (base_errors n parent_gc progeny_gc) i j) →
  is_Some (cell progeny_gc i j).
Proof.
  unfold base_errors, cell. rewrite lookup_zip_with.
  destruct (progeny_gc !! i) as [row|]; simpl; [|by intros [? ?]].
  destruct (sum_axis1 _ _ !! i); simpl; [|by intros [? ?]].
  rewrite list_lookup_fmap. destruct (row !! j); [by eexists|by intros [? ?]].
Qed.

Lemma mendel_errors_cell_inv (parents progeny : ndarray) me i j v :
  mendel_errors parents progeny = Ok me →
  cell me i j = Some v →
  is_Some (call_at progeny i j).
Proof.
  unfold mendel_errors, mendel_errors_trace.
  destruct (bool_decide (ploidy parents ≠ 2%nat) || bool_decide (ploidy progeny ≠ 2%nat));
    [done|]. simpl.
  destruct (amax parents) as [pm|]; [|done]. simpl.
  destruct (amax progeny) as [gm|]; [|done]. simpl.
  destruct (index_axis1 _ 0 _); [|done]. simpl.
  destruct (index_axis1 _ 1 _); [|done]. simpl.
  intros [= <-].
  rewrite cell_row_mask_assign, cell_mask_assign. intros Hv.
  set (U := py_range _) in Hv.
  assert (is_Some (cell (to_allele_counts U progeny) i j)) as [x Hx].
  { apply (base_errors_cell_inv (length U) (to_allele_counts U parents)).
    destruct (cell (base_errors _ _ _) i j); [by eexists|done]. }
  rewrite cell_to_allele_counts in Hx.
  destruct (call_at progeny i j); [by eexists|done].
Qed.

Lemma trio_arrays_parents_row parents progeny i j c :
  trio_arrays parents progeny = true →
  call_at progeny i j = Some c →
  ∃ p1 p2, calls parents !! i = Some [p1; p2]
         ∧ length p1 = 2%nat ∧ length p2 = 2%nat ∧ length c = 2%nat.
Proof.
  intros Ht Hc.
  pose proof Ht as (Hwp & Hwg & Hpp & Hpg & Hsp & Hnv)%trio_arrays_inv.
  assert (i < n_variants parents)%nat as Hi.
  { rewrite Hnv. unfold well_shaped in Hwg.
    apply andb_prop in Hwg as [<-%bool_decide_eq_true _].
    unfold call_at in Hc. destruct (calls progeny !! i) eqn:E; [|done].
    by eapply lookup_lt_Some. }
  unfold well_shaped in Hwp. pose proof Hwp as [Hl%bool_decide_eq_true Hrows]%andb_prop.
  rewrite <- Hl in Hi. apply lookup_lt_is_Some in Hi as [row Hrow].
  rewrite forallb_forall in Hrows.
  pose proof (Hrows row ltac:(by eapply list_elem_of_In, list_elem_of_lookup_2))
    as [Hlen%bool_decide_eq_true _]%andb_prop.
  rewrite Hsp in Hlen. destruct row as [|p1 [|p2 [|]]]; try done.
  exists p1, p2. split; [done|].
  rewrite <- Hpp at 1 2. rewrite <- Hpg.
  split; [|split].
  - apply (well_shaped_call parents i 0); [done|]. unfold call_at. by rewrite Hrow.
  - apply (well_shaped_call parents i 1); [done|]. unfold call_at. by rewrite Hrow.
  - by apply (well_shaped_call progeny i j).
Qed.

(** X1.  On the documented inputs, with at least one progeny call,
    [mendel_errors] returns an array that has an entry exactly where the
    progeny array has a call: its shape is (n_variants, n_progeny). *)
Theorem mendel_errors_shape (parents progeny : ndarray) i0 j0 c0 :
  trio_arrays parents progeny = true →
  call_at progeny i0 j0 = Some c0 →
  ∃ me, mendel_errors parents progeny = Ok me
      ∧ ∀ i j, is_Some (cell me i j) ↔ is_Some (call_at progeny i j).
Proof.
  intros Ht Hc0.
  destruct (trio_arrays_parents_row _ _ _ _ _ Ht Hc0) as (q1 & q2 & Hq & _).
  destruct (mendel_errors_trace_cell _ _ _ _ _ _ _ Ht Hq Hc0)
    as (t & Hrun & Hme & _).
  exists (me_final t). split; [done|]. intros i j. split.
  - intros [v Hv]. by eapply mendel_errors_cell_inv.
  - intros [c Hc].
    destruct (trio_arrays_parents_row _ _ _ _ _ Ht Hc) as (p1 & p2 & Hp & _).
    destruct (mendel_errors_trace_cell _ _ _ _ _ _ _ Ht Hp Hc)
      as (t' & Hrun' & _ & _ & _ & _ & _ & Hfin).
    rewrite Hrun in Hrun'. injection Hrun' as <-. by eexists.
Qed.

Lemma mendel_errors_shape_witness :
  let parents := parents_of doctest_nonparental in
  let progeny := progeny_of doctest_nonparental in
  ∃ me, mendel_errors parents progeny = Ok me
      ∧ ∀ i j, is_Some (cell me i j) ↔ is_Some (call_at progeny i j).
Proof.
  intros parents progeny.
  apply (mendel_errors_shape parents progeny 0 0 [0; 1]); reflexivity.
Defined.

Lemma sumZ_app l k : sumZ (l ++ k) = sumZ l + sumZ k.
Proof. induction l as [|x l IH]; simpl; [done|]. rewrite IH. lia. Qed.

Lemma sumZ_nonneg l : Forall (λ x, 0 ≤ x) l → 0 ≤ sumZ l.
Proof. induction 1; simpl; lia. Qed.

Lemma sumZ_le {A} (f g : A → Z) l :
  (∀ a, a ∈ l → f a ≤ g a) → sumZ (f <$> l) ≤ sumZ (g <$> l).
Proof.
  induction l as [|a l IH]; intros H; csimpl; [done|].
  pose proof (H a ltac:(by left)). 
  assert (sumZ (f <$> l) ≤ sumZ (g <$> l)) by (apply IH; intros; apply H; by right).
  lia.
Qed.

Lemma sumZ_fmap_add {A} (f g : A → Z) l :
  sumZ ((λ a, f a + g a) <$> l) = sumZ (f <$> l) + sumZ (g <$> l).
Proof. induction l as [|a l IH]; csimpl; [done|]. rewrite IH. lia. Qed.

Lemma sumZ_indicator_absent x l :
  x ∉ l → sumZ ((λ a, b2z (x =? a)) <$> l) = 0.
Proof.
  induction l as [|a l IH]; intros H; csimpl; [done|].
  rewrite not_elem_of_cons in H. destruct H as [Hne Hl].
  rewrite (IH Hl). unfold b2z. destruct (Z.eqb_spec x a); [done|lia].
Qed.

Lemma sumZ_indicator_NoDup x l :
  NoDup l → 0 ≤ sumZ ((λ a, b2z (x =? a)) <$> l) ≤ 1.
Proof.
  induction 1 as [|a l Hnin Hnd IH]; [simpl; lia|].
  rewrite fmap_cons.
  change (sumZ (?y :: ?k)) with (y + sumZ k).
  destruct (Z.eqb_spec x a) as [->|Hne]; cbn [b2z]; [|lia].
  rewrite (sumZ_indicator_absent a l Hnin). lia.
Qed.

(** The allele counts of a call over a universe without repetition add up
    to at most the ploidy of the call. *)
Lemma sumZ_allele_counts_le alleles call :
  NoDup alleles →
  0 ≤ sumZ (allele_counts alleles call) ≤ Z.of_nat (length call).
Proof.
  intros Hnd. unfold allele_counts.
  induction call as [|x call IH].
  - replace ((λ a, count_allele a []) <$> alleles) with ((λ _ : Z, 0) <$> alleles)
      by done.
    rewrite sumZ_zero; [simpl; lia|]. apply Forall_fmap, Forall_forall. done.
  - erewrite (list_fmap_ext _ (λ a, b2z (x =? a) + count_allele a call)); [|done].
    rewrite sumZ_fmap_add.
    pose proof (sumZ_indicator_NoDup x alleles Hnd). simpl length. lia.
Qed.

Lemma spec_base_count_bounds alleles p1 p2 c :
  NoDup alleles →
  0 ≤ spec_base_count alleles p1 p2 c ≤ Z.of_nat (length c).
Proof.
  intros Hnd. unfold spec_base_count, allele_counts, spec_availability.
  rewrite zip_with_fmap_diag, <- list_fmap_compose. split.
  - apply sumZ_nonneg, Forall_fmap, Forall_forall. intros a _. simpl. lia.
  - etrans; [|apply (sumZ_allele_counts_le alleles c Hnd)].
    apply sumZ_le. intros a _. simpl.
    pose proof (count_allele_nonneg a c).
    pose proof (count_allele_nonneg a p1).
    pose proof (count_allele_nonneg a p2). lia.
Qed.

(** X2.  On the documented inputs every entry of the result of
    [mendel_errors] is 0, 1 or 2: a diploid call has no more than two
    allele copies that the parents cannot supply. *)
Theorem mendel_errors_range (parents progeny : ndarray) i j c :
  trio_arrays parents progeny = true →
  call_at progeny i j = Some c →
  ∃ me v, mendel_errors parents progeny = Ok me
        ∧ cell me i j = Some v ∧ 0 ≤ v ≤ 2.
Proof.
  intros Ht Hc.
  destruct (trio_arrays_parents_row _ _ _ _ _ Ht Hc) as (p1 & p2 & Hp & _ & _ & Hlen).
  destruct (mendel_errors_trace_cell _ _ _ _ _ _ _ Ht Hp Hc)
    as (t & Hrun & Hme & _ & _ & _ & _ & Hfin).
  destruct (mendel_errors_trace_universe _ _ _ Hrun) as [n Hn].
  eexists _, _. split; [exact Hme|]. split; [exact Hfin|].
  pose proof (spec_base_count_bounds (tr_alleles t) p1 p2 c) as Hb.
  rewrite Hn in Hb at 1. specialize (Hb (NoDup_py_range n)). rewrite Hlen in Hb.
  unfold spec_mendel_error.
  destruct (call_is_missing p1 || call_is_missing p2); [lia|].
  destruct (spec_uniparental _ _ _ _); lia.
Qed.

Lemma mendel_errors_range_witness :
  ∃ me v, mendel_errors (parents_of doctest_nonparental)
                        (progeny_of doctest_nonparental) = Ok me
        ∧ cell me 0 3 = Some v ∧ 0 ≤ v ≤ 2.
Proof.
  apply (mendel_errors_range (parents_of doctest_nonparental)
           (progeny_of doctest_nonparental) 0 3 [2; 2]); reflexivity.
Defined.

(** ** [mendel_errors]: no error exactly for Mendelian transmission *)

Lemma sumZ_zero_inv l : Forall (λ x, 0 ≤ x) l → sumZ l = 0 → Forall (λ x, x = 0) l.
Proof.
  induction 1 as [|x l Hx Hl IH]; simpl; intros Hs; [done|].
  pose proof (sumZ_nonneg l Hl).
  constructor; [lia|]. apply IH. lia.
Qed.

Lemma spec_base_count_zero_iff alleles p1 p2 c :
  spec_base_count alleles p1 p2 c = 0 ↔
  ∀ a, a ∈ alleles →
       count_allele a c
       ≤ Z.min 1 (count_allele a p1) + Z.min 1 (count_allele a p2).
Proof.
  split; [|apply spec_base_count_zero].
  unfold spec_base_count, allele_counts, spec_availability.
  rewrite zip_with_fmap_diag, <- list_fmap_compose. intros Hs a Ha.
  apply sumZ_zero_inv in Hs.
  - rewrite Forall_fmap, Forall_forall in Hs. specialize (Hs a Ha).
    simpl in Hs. lia.
  - apply Forall_fmap, Forall_forall. intros b _. simpl. lia.
Qed.

Lemma call_not_missing_nonneg call a :
  call_is_missing call = false → a ∈ call → 0 ≤ a.
Proof.
  intros Hm Ha. destruct (decide (0 ≤ a)) as [|Hn]; [done|].
  assert (call_is_missing call = true) as Habs; [|congruence].
  apply call_is_missing_spec. exists a. split; [done|lia].
Qed.

Lemma two_alleles_of_pair (p : list Z) x y :
  length p = 2%nat → x ∈ p → y ∈ p → x ≠ y → p = [x; y] ∨ p = [y; x].
Proof.
  destruct p as [|u [|v [|]]]; try done. intros _.
  rewrite !elem_of_cons, !elem_of_nil. intros Hx Hy Hne.
  destruct Hx as [->|[->|[]]], Hy as [->|[->|[]]]; try done; auto.
Qed.

Lemma min_one_count a p :
  Z.min 1 (count_allele a p) = if bool_decide (a ∈ p) then 1 else 0.
Proof.
  case_bool_decide as H.
  - apply count_allele_pos in H. lia.
  - rewrite (count_allele_absent _ _ H). lia.
Qed.

Lemma count_allele_pair a x y :
  count_allele a [x; y] = b2z (x =? a) + b2z (y =? a).
Proof. rewrite !count_allele_cons, count_allele_nil. lia. Qed.

Lemma spec_mendel_error_zero_iff alleles p1 p2 x y :
  (∀ a, a ∈ alleles → 0 ≤ a) →
  (∀ a, 0 ≤ a → a ∈ p1 ∨ a ∈ p2 ∨ a ∈ [x; y] → a ∈ alleles) →
  length p1 = 2%nat → length p2 = 2%nat →
  call_is_missing p1 = false → call_is_missing p2 = false →
  call_is_missing [x; y] = false →
  spec_mendel_error alleles p1 p2 [x; y] = 0 ↔
  (x ∈ p1 ∧ y ∈ p2) ∨ (y ∈ p1 ∧ x ∈ p2).
Proof.
  intros Hnn Hin Hl1 Hl2 Hm1 Hm2 Hmc.
  assert (0 ≤ x) as Hx0 by (apply (call_not_missing_nonneg [x; y]); [done|by left]).
  assert (0 ≤ y) as Hy0
    by (apply (call_not_missing_nonneg [x; y]); [done|by right; left]).
  assert (x ∈ alleles) as Hxu by (apply Hin; [done|]; right; right; by left).
  assert (y ∈ alleles) as Hyu
    by (apply Hin; [done|]; right; right; right; by left).
  assert (0 < count_allele x [x; y]) as Hcx by (apply count_allele_pos; by left).
  assert (0 < count_allele y [x; y]) as Hcy
    by (apply count_allele_pos; right; by left).
  unfold spec_mendel_error. rewrite Hm1, Hm2. simpl.
  destruct (spec_uniparental alleles p1 p2 [x; y]) eqn:Eu.
  - (* the uniparental override: the count is 1 *)
    apply spec_uniparental_true_iff in Eu as [Hns Heq].
    split; [done|]. intros Hcons. exfalso.
    destruct Heq as [Heq|Heq], Hcons as [[H1 H2]|[H1 H2]].
    + apply (Hns y Hyu); [|done]. apply count_allele_pos. rewrite <- Heq; done.
    + apply (Hns x Hxu); [|done]. apply count_allele_pos. rewrite <- Heq; done.
    + apply (Hns x Hxu); [done|]. apply count_allele_pos. rewrite <- Heq; done.
    + apply (Hns y Hyu); [done|]. apply count_allele_pos. rewrite <- Heq; done.
  - rewrite spec_base_count_zero_iff. split.
    + intros Hb.
      pose proof (Hb x Hxu) as Hbx. pose proof (Hb y Hyu) as Hby.
      rewrite !min_one_count in Hbx, Hby.
      rewrite count_allele_pair in Hbx, Hby, Hcx, Hcy.
      destruct (decide (x ∈ p1)) as [X1|X1], (decide (y ∈ p2)) as [Y2|Y2]; auto;
      destruct (decide (y ∈ p1)) as [Y1|Y1], (decide (x ∈ p2)) as [X2|X2]; auto;
      rewrite ?(bool_decide_eq_true_2 _ X1), ?(bool_decide_eq_false_2 _ X1),
              ?(bool_decide_eq_true_2 _ X2), ?(bool_decide_eq_false_2 _ X2) in Hbx;
      rewrite ?(bool_decide_eq_true_2 _ Y1), ?(bool_decide_eq_false_2 _ Y1),
              ?(bool_decide_eq_true_2 _ Y2), ?(bool_decide_eq_false_2 _ Y2) in Hby;
      try lia; exfalso.
      * (* both alleles from parent 1 only *)
        assert (x ≠ y) as Hne.
        { intros ->. rewrite Z.eqb_refl in Hby. simpl in Hby. lia. }
        apply not_true_iff_false in Eu. apply Eu, spec_uniparental_true_iff.
        destruct (two_alleles_of_pair p1 x y Hl1 X1 Y1 Hne) as [-> | ->].
        -- split; [|by left].
           intros a _. rewrite !elem_of_cons, elem_of_nil.
           intros [->|[->|[]]]; done.
        -- split.
           ++ intros a _. rewrite !elem_of_cons, elem_of_nil.
              intros [->|[->|[]]]; done.
           ++ left. intros a _. rewrite !count_allele_pair. lia.
      * (* both alleles from parent 2 only *)
        assert (x ≠ y) as Hne.
        { intros ->. rewrite Z.eqb_refl in Hby. simpl in Hby. lia. }
        apply not_true_iff_false in Eu. apply Eu, spec_uniparental_true_iff.
        destruct (two_alleles_of_pair p2 x y Hl2 X2 Y2 Hne) as [-> | ->].
        -- split; [|by right].
           intros a _ Ha. rewrite !elem_of_cons, elem_of_nil.
           intros [->|[->|[]]]; done.
        -- split.
           ++ intros a _ Ha. rewrite !elem_of_cons, elem_of_nil.
              intros [->|[->|[]]]; done.
           ++ right. intros a _. rewrite !count_allele_pair. lia.
    + intros Hcons a Ha. rewrite !min_one_count, count_allele_pair. unfold b2z.
      destruct Hcons as [[H1 H2]|[H1 H2]];
        destruct (Z.eqb_spec x a) as [Hxa|?], (Z.eqb_spec y a) as [Hya|?];
        try (rewrite Hxa in * ); try (rewrite Hya in * );
        try rewrite (bool_decide_eq_true_2 _ H1);
        try rewrite (bool_decide_eq_true_2 _ H2);
        repeat case_bool_decide; lia.
Qed.

(** X3.  On arrays none of whose entries is the largest value of its
    dtype (so that [max_allele + 1] of line 190 does not wrap), where
    neither parent call nor the progeny call has a missing allele, the
    error count of the cell is 0 exactly when the call is a Mendelian
    transmission: one of its alleles is carried by the first parent and the
    other by the second. *)
Theorem mendel_errors_zero_iff_mendelian (parents progeny : ndarray) i j p1 p2 x y :
  trio_arrays parents progeny = true →
  alleles_below_dtype_max parents = true →
  alleles_below_dtype_max progeny = true →
  calls parents !! i = Some [p1; p2] →
  call_at progeny i j = Some [x; y] →
  call_is_missing p1 = false →
  call_is_missing p2 = false →
  call_is_missing [x; y] = false →
  ∃ me v, mendel_errors parents progeny = Ok me
        ∧ cell me i j = Some v
        ∧ (v = 0 ↔ (x ∈ p1 ∧ y ∈ p2) ∨ (y ∈ p1 ∧ x ∈ p2)).
Proof.
  intros Ht Hbp Hbg Hp Hc Hm1 Hm2 Hmc.
  destruct (trio_arrays_parents_row _ _ _ _ _ Ht Hc)
    as (q1 & q2 & Hq & Hl1 & Hl2 & _).
  rewrite Hp in Hq. injection Hq as <- <-.
  destruct (mendel_errors_trace_cell _ _ _ _ _ _ _ Ht Hp Hc)
    as (t & Hrun & Hme & Hnn & Hin & _ & _ & Hfin).
  specialize (Hin Hbp Hbg).
  eexists _, _. split; [exact Hme|]. split; [exact Hfin|].
  by apply spec_mendel_error_zero_iff.
Qed.

Lemma mendel_errors_zero_iff_mendelian_witness :
  ∃ me v, mendel_errors (parents_of doctest_hemiparental)
                        (progeny_of doctest_hemiparental) = Ok me
        ∧ cell me 3 1 = Some v
        ∧ (v = 0 ↔ (2 ∈ [0; 1] ∧ 2 ∈ [1; 2]) ∨ (2 ∈ [0; 1] ∧ 2 ∈ [1; 2])).
Proof.
  apply (mendel_errors_zero_iff_mendelian
           (parents_of doctest_hemiparental) (progeny_of doctest_hemiparental)
           3 1 [0; 1] [1; 2] 2 2); reflexivity.
Defined.

(** The wrap is what the hypothesis on the entries excludes: an [int8]
    trio with the allele 127 has the Mendelian call 0/1 of parents 0/0 and
    0/1 counted as an error. *)
Example mendel_errors_mendelian_wrapped :
  mendel_errors (mkArray int8 (genotype_array [[[0; 0]; [0; 1]]; [[127; 127]; [127; 127]]]))
                (mkArray int8 (genotype_array [[[0; 1]]; [[127; 127]]]))
  = Ok [[1]; [1]].
Proof. vm_compute. reflexivity. Qed.

(** ** [mendel_errors]: what a cell does not depend on *)

Lemma sumZ_Permutation l k : l ≡ₚ k → sumZ l = sumZ k.
Proof. induction 1; simpl; lia. Qed.

Lemma sumZ_filter_nonzero {A} (g : A → Z) l :
  sumZ (g <$> l) = sumZ (g <$> filter (λ a, g a ≠ 0) l).
Proof.
  induction l as [|a l IH]; [done|].
  rewrite filter_cons, fmap_cons. change (sumZ (?y :: ?k)) with (y + sumZ k).
  case_decide as Hg.
  - rewrite fmap_cons. change (sumZ (?y :: ?k)) with (y + sumZ k). by rewrite IH.
  - rewrite Hg, IH. done.
Qed.

(** A sum over a universe only sees the alleles at which the summand is
    not 0. *)
Lemma sumZ_universe (g : Z → Z) U U' :
  NoDup U → NoDup U' →
  (∀ a, g a ≠ 0 → (a ∈ U ↔ a ∈ U')) →
  sumZ (g <$> U) = sumZ (g <$> U').
Proof.
  intros Hu Hu' H.
  rewrite (sumZ_filter_nonzero g U), (sumZ_filter_nonzero g U').
  apply sumZ_Permutation, fmap_Permutation, NoDup_Permutation.
  - by apply NoDup_filter.
  - by apply NoDup_filter.
  - intros a. rewrite !list_elem_of_filter.
    split; intros [Hg Ha]; (split; [done|]); by apply (H a Hg).
Qed.

Lemma spec_mendel_error_universe U U' p1 p2 c :
  universe_of U p1 p2 c → universe_of U' p1 p2 c →
  spec_mendel_error U p1 p2 c = spec_mendel_error U' p1 p2 c.
Proof.
  intros HU HU'. unfold spec_mendel_error.
  destruct (call_is_missing p1 || call_is_missing p2); [done|].
  assert (spec_uniparental U p1 p2 c = spec_uniparental U' p1 p2 c) as ->.
  { apply eq_true_iff_eq.
    by rewrite (spec_uniparental_universe U), (spec_uniparental_universe U'). }
  destruct (spec_uniparental U' p1 p2 c); [done|].
  destruct HU as (Hnd & Hnn & Hin), HU' as (Hnd' & Hnn' & Hin').
  unfold spec_base_count, allele_counts, spec_availability.
  rewrite !zip_with_fmap_diag, <- !list_fmap_compose.
  apply sumZ_universe; [done..|]. intros a Hg. simpl in Hg.
  assert (a ∈ c) as Hac.
  { apply count_allele_pos.
    pose proof (count_allele_nonneg a p1).
    pose proof (count_allele_nonneg a p2). lia. }
  split; intros Ha.
  - apply Hin'; auto.
  - apply Hin; auto.
Qed.

(** Where [max_allele + 1] does not wrap, the list [alleles] of the run is
    an allele universe of every cell. *)
Lemma mendel_errors_cell_universe (parents progeny : ndarray) i j p1 p2 c :
  trio_arrays parents progeny = true →
  alleles_below_dtype_max parents = true →
  alleles_below_dtype_max progeny = true →
  calls parents !! i = Some [p1; p2] →
  call_at progeny i j = Some c →
  ∃ me U, mendel_errors parents progeny = Ok me
        ∧ universe_of U p1 p2 c
        ∧ cell me i j = Some (spec_mendel_error U p1 p2 c).
Proof.
  intros Ht Hbp Hbg Hp Hc.
  destruct (mendel_errors_trace_cell _ _ _ _ _ _ _ Ht Hp Hc)
    as (t & Hrun & Hme & Hnn & Hin & _ & _ & Hfin).
  exists (me_final t), (tr_alleles t). split; [done|]. split; [|done].
  apply (universe_of_trace parents progeny); [done|]. by apply Hin.
Qed.

Lemma existsb_ext_in {A} (f g : A → bool) l :
  (∀ a, f a = g a) → existsb f l = existsb g l.
Proof. intros H. induction l as [|a l IH]; simpl; [done|]. by rewrite H, IH. Qed.

Lemma call_is_missing_elem_of p p' :
  (∀ a, a ∈ p ↔ a ∈ p') → call_is_missing p = call_is_missing p'.
Proof.
  intros H. apply eq_true_iff_eq. rewrite !call_is_missing_spec.
  split; intros (a & Ha & Hn); exists a; (split; [by apply H|done]).
Qed.

Lemma count_allele_elem_of p p' :
  (∀ a, count_allele a p = count_allele a p') → ∀ a, a ∈ p ↔ a ∈ p'.
Proof. intros H a. by rewrite <- !count_allele_pos, H. Qed.

(** The error count of a cell sees the three calls through their allele
    counts only. *)
Lemma spec_mendel_error_ext U p1 p2 c p1' p2' c' :
  (∀ a, count_allele a p1 = count_allele a p1') →
  (∀ a, count_allele a p2 = count_allele a p2') →
  (∀ a, count_allele a c = count_allele a c') →
  spec_mendel_error U p1 p2 c = spec_mendel_error U p1' p2' c'.
Proof.
  intros H1 H2 Hc. unfold spec_mendel_error.
  rewrite (call_is_missing_elem_of p1 p1') by by apply count_allele_elem_of.
  rewrite (call_is_missing_elem_of p2 p2') by by apply count_allele_elem_of.
  assert (allele_counts U c = allele_counts U c') as Ec
    by (apply allele_counts_eq; auto).
  assert (allele_counts U p1 = allele_counts U p1') as E1
    by (apply allele_counts_eq; auto).
  assert (allele_counts U p2 = allele_counts U p2') as E2
    by (apply allele_counts_eq; auto).
  assert (spec_availability U p1 p2 = spec_availability U p1' p2') as Ea.
  { unfold spec_availability. apply list_fmap_ext. intros _ a _. by rewrite H1, H2. }
  assert (spec_share_no_allele U p1 p2 = spec_share_no_allele U p1' p2') as Es.
  { unfold spec_share_no_allele. f_equal. apply existsb_ext_in.
    intros a. by rewrite H1, H2. }
  unfold spec_uniparental, spec_base_count. by rewrite Ec, E1, E2, Ea, Es.
Qed.

Lemma spec_mendel_error_parents_comm U p1 p2 c :
  spec_mendel_error U p2 p1 c = spec_mendel_error U p1 p2 c.
Proof.
  unfold spec_mendel_error. rewrite (orb_comm (call_is_missing p2)).
  assert (spec_availability U p2 p1 = spec_availability U p1 p2) as Ea.
  { unfold spec_availability. apply list_fmap_ext. intros _ a _. lia. }
  assert (spec_share_no_allele U p2 p1 = spec_share_no_allele U p1 p2) as Es.
  { unfold spec_share_no_allele. f_equal. apply existsb_ext_in.
    intros a. apply andb_comm. }
  unfold spec_uniparental, spec_base_count. rewrite Ea, Es.
  by rewrite (orb_comm (bool_decide (_ = allele_counts U p2))).
Qed.

Lemma trio_arrays_single p1 p2 c :
  length p1 = 2%nat → length p2 = 2%nat → length c = 2%nat →
  trio_arrays (genotype_array [[p1; p2]]) (genotype_array [[c]]) = true.
Proof.
  destruct p1 as [|? [|? [|]]], p2 as [|? [|? [|]]], c as [|? [|? [|]]]; done.
Qed.

(** An array of the same dtype made of entries of [g] has no entry at the
    largest value of the dtype where [g] has none. *)
Lemma alleles_below_dtype_max_sub (g : ndarray) data :
  (∀ z, z ∈ concat (concat data) → z ∈ concat (concat (calls g))) →
  alleles_below_dtype_max g = true →
  alleles_below_dtype_max (mkArray (arr_dtype g) (genotype_array data)) = true.
Proof.
  intros Hsub Hb. unfold alleles_below_dtype_max. simpl.
  apply forallb_forall. intros row Hrow%list_elem_of_In.
  apply forallb_forall. intros call Hcall%list_elem_of_In.
  apply forallb_forall. intros z Hz%list_elem_of_In.
  apply list_elem_of_lookup_1 in Hrow as [i Hi].
  apply list_elem_of_lookup_1 in Hcall as [j Hj].
  assert (z ∈ concat (concat data)) as Hz'.
  { apply elem_of_flatten. exists i, j, call. by rewrite Hi. }
  pose proof (alleles_below_dtype_max_elem _ _ Hb (Hsub _ Hz')) as [H1 H2].
  apply andb_true_intro. split; [by apply Z.leb_le|by apply Z.ltb_lt].
Qed.

(** X6.  On arrays none of whose entries is the largest value of its dtype
    (so that [max_allele + 1] of line 190 does not wrap), the error count
    of a cell depends on the three calls of its trio only: it is the count
    [mendel_errors] gives when it is run on arrays of the same dtypes that
    hold that variant and that progeny alone.  The other variants and
    progeny, and with them the size of the allele universe, do not enter. *)
Theorem mendel_errors_cell_local (parents progeny : ndarray) i j p1 p2 c :
  trio_arrays parents progeny = true →
  alleles_below_dtype_max parents = true →
  alleles_below_dtype_max progeny = true →
  calls parents !! i = Some [p1; p2] →
  call_at progeny i j = Some c →
  ∃ me v, mendel_errors parents progeny = Ok me
        ∧ cell me i j = Some v
        ∧ mendel_errors (mkArray (arr_dtype parents) (genotype_array [[p1; p2]]))
                        (mkArray (arr_dtype progeny) (genotype_array [[c]]))
          = Ok [[v]].
Proof.
  intros Ht Hbp Hbg Hp Hc.
  destruct (trio_arrays_parents_row _ _ _ _ _ Ht Hc)
    as (q1 & q2 & Hq & Hl1 & Hl2 & Hlc).
  rewrite Hp in Hq. injection Hq as <- <-.
  set (parents' := mkArray (arr_dtype parents) (genotype_array [[p1; p2]])).
  set (progeny' := mkArray (arr_dtype progeny) (genotype_array [[c]])).
  assert (trio_arrays parents' progeny' = true) as Ht'
    by by apply trio_arrays_single.
  assert (alleles_below_dtype_max parents' = true) as Hbp'.
  { apply alleles_below_dtype_max_sub; [|done].
    intros z (i' & j' & c' & Hc' & Hz)%elem_of_flatten.
    apply elem_of_flatten.
    destruct i' as [|i']; [|done]. simpl in Hc'.
    exists i, j', c'. by rewrite Hp. }
  assert (alleles_below_dtype_max progeny' = true) as Hbg'.
  { apply alleles_below_dtype_max_sub; [|done].
    intros z (i' & j' & c' & Hc' & Hz)%elem_of_flatten.
    apply elem_of_flatten.
    destruct i' as [|i']; [|done]. destruct j' as [|j']; [|done].
    simpl in Hc'. injection Hc' as <-. by exists i, j, c. }
  destruct (mendel_errors_cell_universe _ _ _ _ _ _ _ Ht Hbp Hbg Hp Hc)
    as (me & U & Hrun & HU & Hv).
  destruct (mendel_errors_cell_universe parents' progeny' 0 0 p1 p2 c
              Ht' Hbp' Hbg' eq_refl eq_refl)
    as (me' & U' & Hrun' & HU' & Hv').
  exists me, (spec_mendel_error U p1 p2 c). split; [done|]. split; [done|].
  rewrite Hrun'. f_equal.
  rewrite (spec_mendel_error_universe U U') by done.
  assert (∃ e, me' = [[e]]) as [e ->].
  { revert Hrun'. unfold mendel_errors, mendel_errors_trace.
    destruct (bool_decide _ || bool_decide _); [simpl; intros [=]|].
    cbn [mbind result_bind fmap result_fmap].
    destruct (amax parents') as [pm|]; [|simpl; intros [=]].
    cbn [mbind result_bind fmap result_fmap].
    destruct (amax progeny') as [gm|]; [|simpl; intros [=]].
    cbn [mbind result_bind fmap result_fmap].
    destruct (index_axis1 _ 0 _) as [g1|] eqn:E1; [|simpl; intros [=]].
    cbn [mbind result_bind fmap result_fmap].
    destruct (index_axis1 _ 1 _) as [g2|] eqn:E2; [|simpl; intros [=]].
    cbn [mbind result_bind fmap result_fmap].
    unfold index_axis1 in E1, E2. simpl in E1, E2.
    injection E1 as <-. injection E2 as <-.
    intros [= <-]. simpl.
    destruct (call_is_missing p1 || (call_is_missing p2 || false));
      eexists; reflexivity. }
  by injection Hv' as ->.
Qed.

Lemma mendel_errors_cell_local_witness :
  ∃ me v, mendel_errors (parents_of doctest_nonparental)
                        (progeny_of doctest_nonparental) = Ok me
        ∧ cell me 15 2 = Some v
        ∧ mendel_errors (mkArray int64 (genotype_array [[[0; 1]; [2; 3]]]))
                        (mkArray int64 (genotype_array [[[2; 4]]])) = Ok [[v]].
Proof.
  apply (mendel_errors_cell_local (parents_of doctest_nonparental)
           (progeny_of doctest_nonparental) 15 2 [0; 1] [2; 3] [2; 4]);
    reflexivity.
Defined.

(** Without the hypothesis on the entries the cell is not local: the
    [int8] trio 0/0 x 0/1 -> 0/1 has no error on its own and one error
    beside a variant with the allele 127. *)
Example mendel_errors_cell_not_local_wrapped :
  mendel_errors (mkArray int8 (genotype_array [[[0; 0]; [0; 1]]]))
                (mkArray int8 (genotype_array [[[0; 1]]])) = Ok [[0]]
  ∧ mendel_errors (mkArray int8 (genotype_array [[[0; 0]; [0; 1]]; [[127; 127]; [127; 127]]]))
                  (mkArray int8 (genotype_array [[[0; 1]]; [[127; 127]]]))
    = Ok [[1]; [1]].
Proof. vm_compute. split; reflexivity. Qed.

(** ** [mendel_errors]: symmetries *)

Lemma forallb_reverse {A} (f : A → bool) l : forallb f (reverse l) = forallb f l.
Proof.
  apply eq_true_iff_eq. rewrite !forallb_forall.
  split; intros H x Hx; apply H; apply list_elem_of_In;
    apply list_elem_of_In in Hx; by apply elem_of_reverse.
Qed.

Lemma well_shaped_swap_samples (g : ndarray) :
  well_shaped g = true → well_shaped (swap_samples g) = true.
Proof.
  unfold well_shaped, swap_samples. simpl.
  rewrite !andb_true_iff, !bool_decide_eq_true, length_fmap.
  intros [Hl H]. split; [done|].
  rewrite forallb_forall in *. intros row' Hrow'.
  apply list_elem_of_In, list_elem_of_fmap in Hrow' as (row & -> & Hrow).
  apply list_elem_of_In, H in Hrow.
  rewrite andb_true_iff, bool_decide_eq_true in *.
  by rewrite length_reverse, forallb_reverse.
Qed.

Lemma well_shaped_swap_alleles (g : ndarray) :
  well_shaped g = true → well_shaped (swap_alleles g) = true.
Proof.
  unfold well_shaped, swap_alleles. simpl.
  rewrite !andb_true_iff, !bool_decide_eq_true, length_fmap.
  intros [Hl H]. split; [done|].
  rewrite forallb_forall in *. intros row' Hrow'.
  apply list_elem_of_In, list_elem_of_fmap in Hrow' as (row & -> & Hrow).
  apply list_elem_of_In, H in Hrow.
  rewrite andb_true_iff, bool_decide_eq_true in *.
  destruct Hrow as [Hlen Hc]. rewrite length_fmap. split; [done|].
  rewrite forallb_forall in *. intros c' Hc'.
  apply list_elem_of_In, list_elem_of_fmap in Hc' as (c & -> & Hin).
  apply list_elem_of_In, Hc in Hin.
  rewrite bool_decide_eq_true in *. by rewrite length_reverse.
Qed.

Lemma trio_arrays_intro parents progeny :
  well_shaped parents = true → well_shaped progeny = true →
  ploidy parents = 2%nat → ploidy progeny = 2%nat →
  n_samples parents = 2%nat → n_variants parents = n_variants progeny →
  trio_arrays parents progeny = true.
Proof.
  intros. unfold trio_arrays. rewrite !andb_true_iff, !bool_decide_eq_true. tauto.
Qed.

Lemma call_at_swap_alleles (g : ndarray) i j :
  call_at (swap_alleles g) i j = reverse <$> call_at g i j.
Proof. apply cell_fmap. Qed.

Lemma count_allele_reverse a p : count_allele a (reverse p) = count_allele a p.
Proof.
  unfold count_allele. rewrite fmap_reverse.
  apply sumZ_Permutation, reverse_Permutation.
Qed.

(** The entries of an array, as the rows and calls that hold them. *)
Lemma elem_of_entries (l : list (list (list Z))) a :
  a ∈ concat (concat l) ↔ ∃ row call, row ∈ l ∧ call ∈ row ∧ a ∈ call.
Proof.
  rewrite elem_of_flatten. split.
  - intros (i & j & call & Hc & Ha).
    destruct (l !! i) as [row|] eqn:Hrow; [|done]. simpl in Hc.
    exists row, call. split; [by eapply list_elem_of_lookup_2|].
    split; [by eapply list_elem_of_lookup_2|done].
  - intros (row & call & [i Hi]%list_elem_of_lookup_1
                       & [j Hj]%list_elem_of_lookup_1 & Ha).
    exists i, j, call. by rewrite Hi.
Qed.

(** [a.max()] sees the array through the set of its entries. *)
Lemma amax_ext g g' :
  (∀ a, a ∈ concat (concat (calls g)) ↔ a ∈ concat (concat (calls g'))) →
  amax g = amax g'.
Proof.
  intros H.
  destruct (amax g) as [m|e] eqn:E, (amax g') as [m'|e'] eqn:E'.
  - f_equal. apply Z.le_antisymm.
    + apply (amax_upper g'); [done|]. apply H. by apply amax_elem.
    + apply (amax_upper g); [done|]. apply H. by apply amax_elem.
  - apply amax_elem, H in E. revert E'. unfold amax.
    destruct (concat (concat (calls g'))); [|done]. by apply elem_of_nil in E.
  - apply amax_elem, H in E'. revert E. unfold amax.
    destruct (concat (concat (calls g))); [|done]. by apply elem_of_nil in E'.
  - revert E E'. unfold amax.
    destruct (concat (concat (calls g))); [|done].
    destruct (concat (concat (calls g'))); [|done]. congruence.
Qed.

Lemma amax_swap_samples (g : ndarray) : amax (swap_samples g) = amax g.
Proof.
  apply amax_ext. intros a. unfold swap_samples. simpl.
  rewrite !elem_of_entries. split.
  - intros (row' & call & (row & -> & Hrow)%list_elem_of_fmap & Hcall & Ha).
    exists row, call. split; [done|]. split; [|done]. by apply elem_of_reverse.
  - intros (row & call & Hrow & Hcall & Ha).
    exists (reverse row), call. split; [by apply list_elem_of_fmap_2|].
    split; [|done]. by apply elem_of_reverse.
Qed.

Lemma amax_swap_alleles (g : ndarray) : amax (swap_alleles g) = amax g.
Proof.
  apply amax_ext. intros a. unfold swap_alleles. simpl.
  rewrite !elem_of_entries. split.
  - intros (row' & call' & (row & -> & Hrow)%list_elem_of_fmap & Hcall & Ha).
    apply list_elem_of_fmap in Hcall as (call & -> & Hcall).
    exists row, call. split; [done|]. split; [done|]. by apply elem_of_reverse.
  - intros (row & call & Hrow & Hcall & Ha).
    exists (reverse <$> row), (reverse call).
    split; [by apply (list_elem_of_fmap_2 (λ r : list (list Z), reverse <$> r))|].
    split; [by apply list_elem_of_fmap_2|]. by apply elem_of_reverse.
Qed.

(** Two runs on arrays of the same dtypes and the same largest entries
    have the same list [alleles]. *)
Lemma mendel_errors_trace_same_alleles (parents progeny parents' progeny' : ndarray) t t' :
  mendel_errors_trace parents progeny = Ok t →
  mendel_errors_trace parents' progeny' = Ok t' →
  arr_dtype parents' = arr_dtype parents →
  arr_dtype progeny' = arr_dtype progeny →
  amax parents' = amax parents →
  amax progeny' = amax progeny →
  tr_alleles t' = tr_alleles t.
Proof.
  intros (pm & gm & Hpm & Hgm & ->)%mendel_errors_trace_alleles
         (pm' & gm' & Hpm' & Hgm' & ->)%mendel_errors_trace_alleles
         -> -> Ep Eg.
  rewrite Ep, Hpm in Hpm'. rewrite Eg, Hgm in Hgm'.
  by injection Hpm' as <-; injection Hgm' as <-.
Qed.

(** X4.  The two parents can be exchanged: [mendel_errors] gives the same
    error count at every cell for the parent array with its two columns
    in the opposite order. *)
Theorem mendel_errors_parents_exchanged (parents progeny : ndarray) i j c :
  trio_arrays parents progeny = true →
  call_at progeny i j = Some c →
  ∃ me me' v, mendel_errors parents progeny = Ok me
            ∧ mendel_errors (swap_samples parents) progeny = Ok me'
            ∧ cell me i j = Some v ∧ cell me' i j = Some v.
Proof.
  intros Ht Hc.
  destruct (trio_arrays_parents_row _ _ _ _ _ Ht Hc) as (p1 & p2 & Hp & _).
  assert (trio_arrays (swap_samples parents) progeny = true) as Ht'.
  { apply trio_arrays_inv in Ht as (? & ? & ? & ? & ? & ?).
    apply trio_arrays_intro; try done. by apply well_shaped_swap_samples. }
  assert (calls (swap_samples parents) !! i = Some [p2; p1]) as Hp'.
  { unfold swap_samples. simpl. by rewrite list_lookup_fmap, Hp. }
  destruct (mendel_errors_trace_cell _ _ _ _ _ _ _ Ht Hp Hc)
    as (t & Hrun & Hme & _ & _ & _ & _ & Hv).
  destruct (mendel_errors_trace_cell _ _ _ _ _ _ _ Ht' Hp' Hc)
    as (t' & Hrun' & Hme' & _ & _ & _ & _ & Hv').
  exists (me_final t), (me_final t'), (spec_mendel_error (tr_alleles t) p1 p2 c).
  split; [done|]. split; [done|]. split; [done|].
  rewrite Hv', spec_mendel_error_parents_comm.
  rewrite (mendel_errors_trace_same_alleles parents progeny
             (swap_samples parents) progeny t t'); try done.
  apply amax_swap_samples.
Qed.

Lemma mendel_errors_parents_exchanged_witness :
  ∃ me me' v,
    mendel_errors (parents_of doctest_hemiparental)
                  (progeny_of doctest_hemiparental) = Ok me
    ∧ mendel_errors (swap_samples (parents_of doctest_hemiparental))
                    (progeny_of doctest_hemiparental) = Ok me'
    ∧ cell me 0 0 = Some v ∧ cell me' 0 0 = Some v.
Proof.
  apply (mendel_errors_parents_exchanged (parents_of doctest_hemiparental)
           (progeny_of doctest_hemiparental) 0 0 [1; 1]); reflexivity.
Defined.

(** X5.  The order of the two alleles of a call does not matter, in the
    parents and in the progeny: [mendel_errors] gives the same error count
    at every cell when the alleles of every parent call, or of every
    progeny call, are written in the opposite order. *)
Theorem mendel_errors_allele_order (parents progeny : ndarray) i j c :
  trio_arrays parents progeny = true →
  call_at progeny i j = Some c →
  ∃ me me1 me2 v,
    mendel_errors parents progeny = Ok me
    ∧ mendel_errors (swap_alleles parents) progeny = Ok me1
    ∧ mendel_errors parents (swap_alleles progeny) = Ok me2
    ∧ cell me i j = Some v ∧ cell me1 i j = Some v ∧ cell me2 i j = Some v.
Proof.
  intros Ht Hc.
  destruct (trio_arrays_parents_row _ _ _ _ _ Ht Hc) as (p1 & p2 & Hp & _).
  pose proof Ht as (Hwp & Hwg & Hpp & Hpg & Hsp & Hnv)%trio_arrays_inv.
  assert (trio_arrays (swap_alleles parents) progeny = true) as Ht1.
  { apply trio_arrays_intro; try done. by apply well_shaped_swap_alleles. }
  assert (trio_arrays parents (swap_alleles progeny) = true) as Ht2.
  { apply trio_arrays_intro; try done. by apply well_shaped_swap_alleles. }
  assert (calls (swap_alleles parents) !! i = Some [reverse p1; reverse p2]) as Hp1.
  { unfold swap_alleles. simpl. by rewrite list_lookup_fmap, Hp. }
  assert (call_at (swap_alleles progeny) i j = Some (reverse c)) as Hc2.
  { by rewrite call_at_swap_alleles, Hc. }
  destruct (mendel_errors_trace_cell _ _ _ _ _ _ _ Ht Hp Hc)
    as (t & Hrun & Hme & _ & _ & _ & _ & Hv).
  destruct (mendel_errors_trace_cell _ _ _ _ _ _ _ Ht1 Hp1 Hc)
    as (t1 & Hrun1 & Hme1 & _ & _ & _ & _ & Hv1).
  destruct (mendel_errors_trace_cell _ _ _ _ _ _ _ Ht2 Hp Hc2)
    as (t2 & Hrun2 & Hme2 & _ & _ & _ & _ & Hv2).
  exists (me_final t), (me_final t1), (me_final t2),
         (spec_mendel_error (tr_alleles t) p1 p2 c).
  split; [done|]. split; [done|]. split; [done|]. split; [done|]. split.
  - rewrite Hv1. f_equal.
    rewrite (mendel_errors_trace_same_alleles parents progeny
               (swap_alleles parents) progeny t t1); try done;
      [|apply amax_swap_alleles].
    apply spec_mendel_error_ext; intros a; by rewrite ?count_allele_reverse.
  - rewrite Hv2. f_equal.
    rewrite (mendel_errors_trace_same_alleles parents progeny
               parents (swap_alleles progeny) t t2); try done;
      [|apply amax_swap_alleles].
    apply spec_mendel_error_ext; intros a; by rewrite ?count_allele_reverse.
Qed.

Lemma mendel_errors_allele_order_witness :
  ∃ me me1 me2 v,
    mendel_errors (parents_of doctest_nonparental)
                  (progeny_of doctest_nonparental) = Ok me
    ∧ mendel_errors (swap_alleles (parents_of doctest_nonparental))
                    (progeny_of doctest_nonparental) = Ok me1
    ∧ mendel_errors (parents_of doctest_nonparental)
                    (swap_alleles (progeny_of doctest_nonparental)) = Ok me2
    ∧ cell me 12 1 = Some v ∧ cell me1 12 1 = Some v ∧ cell me2 12 1 = Some v.
Proof.
  apply (mendel_errors_allele_order (parents_of doctest_nonparental)
           (progeny_of doctest_nonparental) 12 1 [1; 3]); reflexivity.
Defined.

(** ** [mendel_errors]: inputs it rejects *)

Lemma concat_nil_Forall {A} (l : list (list A)) :
  Forall (λ x, x = []) l → concat l = [].
Proof. induction 1 as [|x l -> _ IH]; simpl; done. Qed.

Lemma amax_empty g :
  well_shaped g = true →
  (n_variants g = 0 ∨ n_samples g = 0)%nat →
  ∃ msg, amax g = Raise (ValueError msg).
Proof.
  unfold well_shaped, amax.
  intros [Hl%bool_decide_eq_true H]%andb_prop Hz.
  assert (concat (calls g) = []) as ->; [|by eexists].
  destruct Hz as [Hz|Hz].
  - rewrite Hz in Hl. by apply nil_length_inv in Hl as ->.
  - apply concat_nil_Forall, Forall_forall. intros row Hrow.
    rewrite forallb_forall in H. apply list_elem_of_In, H in Hrow.
    apply andb_prop in Hrow as [Hrow%bool_decide_eq_true _].
    rewrite Hz in Hrow. by apply nil_length_inv.
Qed.

Lemma amax_cases g : (∃ m, amax g = Ok m) ∨ (∃ msg, amax g = Raise (ValueError msg)).
Proof. unfold amax. destruct (concat (concat (calls g))); eauto. Qed.

(** X7.  [mendel_errors] does not return an empty result for empty input:
    when the parent array or the progeny array has no variant or no
    sample, taking the maximum allele (line 189) raises a ValueError. *)
Theorem mendel_errors_empty (parents progeny : ndarray) :
  well_shaped parents = true → well_shaped progeny = true →
  ploidy parents = 2%nat → ploidy progeny = 2%nat →
  (n_variants parents = 0 ∨ n_samples parents = 0 ∨
   n_variants progeny = 0 ∨ n_samples progeny = 0)%nat →
  ∃ msg, mendel_errors parents progeny = Raise (ValueError msg).
Proof.
  intros Hwp Hwg Hpp Hpg Hz. unfold mendel_errors, mendel_errors_trace.
  rewrite Hpp, Hpg. simpl.
  assert ((∃ msg, amax parents = Raise (ValueError msg)) ∨
          ((∃ m, amax parents = Ok m) ∧ ∃ msg, amax progeny = Raise (ValueError msg)))
    as [[msg ->]|[[m ->] [msg ->]]]; [|by eexists..].
  destruct (amax_cases parents) as [Hok|Herr]; [|by left].
  destruct Hz as [Hz|[Hz|Hz]]; [left; apply amax_empty; auto..|].
  right. split; [done|]. apply amax_empty; auto.
Qed.

Lemma mendel_errors_empty_witness :
  ∃ msg, mendel_errors (mkArray int64 (mkGenotypeArray 0 2 2 []))
                       (mkArray int64 (mkGenotypeArray 0 3 2 []))
         = Raise (ValueError msg).
Proof.
  apply (mendel_errors_empty (mkArray int64 (mkGenotypeArray 0 2 2 []))
                             (mkArray int64 (mkGenotypeArray 0 3 2 [])));
    try reflexivity.
  left. reflexivity.
Defined.

Lemma amax_nonempty g :
  well_shaped g = true →
  (0 < n_variants g)%nat → (0 < n_samples g)%nat → (0 < ploidy g)%nat →
  ∃ m, amax g = Ok m.
Proof.
  intros Hw Hv Hs Hp.
  destruct (well_shaped_row g 0 Hw Hv) as (row & Hrow & Hlen).
  destruct row as [|c row]; [simpl in Hlen; lia|].
  assert (call_at g 0 0 = Some c) as Hc by (unfold call_at; by rewrite Hrow).
  pose proof (well_shaped_call g 0 0 c Hw Hc) as Hlc.
  destruct c as [|x c]; [simpl in Hlc; lia|].
  apply (amax_total g 0 0 (x :: c) x Hc). by left.
Qed.

(** X8.  [mendel_errors] does not accept a single parent: with a parent
    array of one sample, the selection of the second parent (line 205)
    raises an IndexError. *)
Theorem mendel_errors_single_parent (parents progeny : ndarray) :
  well_shaped parents = true → well_shaped progeny = true →
  ploidy parents = 2%nat → ploidy progeny = 2%nat →
  n_variants parents = n_variants progeny →
  (0 < n_variants progeny)%nat → (0 < n_samples progeny)%nat →
  n_samples parents = 1%nat →
  ∃ msg, mendel_errors parents progeny = Raise (IndexError msg).
Proof.
  intros Hwp Hwg Hpp Hpg Hnv Hv Hs H1.
  destruct (amax_nonempty parents) as [pm Hpm]; [done|lia..|].
  destruct (amax_nonempty progeny) as [gm Hgm]; [done|lia..|].
  unfold mendel_errors, mendel_errors_trace.
  rewrite Hpp, Hpg, Hpm, Hgm, H1. simpl. by eexists.
Qed.

Lemma mendel_errors_single_parent_witness :
  ∃ msg, mendel_errors (np_array [[[0; 1]]]) (np_array [[[0; 0]]])
         = Raise (IndexError msg).
Proof.
  apply (mendel_errors_single_parent (np_array [[[0; 1]]])
           (np_array [[[0; 0]]])); try reflexivity; simpl; lia.
Defined.

(** ** [paint_transmission]: what the codes mean *)

(** Splits on every comparison of alleles in the goal, dropping the
    branches whose hypotheses contradict each other. *)
Ltac allele_cases :=
  repeat (match goal with
          | |- context [?a <? ?b] => destruct (Z.ltb_spec a b)
          | |- context [?a <=? ?b] => destruct (Z.leb_spec a b)
          | |- context [?a =? ?b] => destruct (Z.eqb_spec a b)
          end; try (exfalso; lia)); simpl.

Lemma spec_paint_state_decode a1 a2 h :
  let v := spec_paint_state a1 a2 h in
  (v = INHERIT_MISSING ↔ h < 0) ∧
  (v = INHERIT_PARENT_MISSING ↔ 0 ≤ h ∧ (a1 < 0 ∨ a2 < 0)) ∧
  (v = INHERIT_NONPARENTAL ↔ 0 ≤ h ∧ 0 ≤ a1 ∧ 0 ≤ a2 ∧ h ≠ a1 ∧ h ≠ a2) ∧
  (v = INHERIT_NONSEG_ALT ↔ 0 < h ∧ a1 = h ∧ a2 = h) ∧
  (v = INHERIT_NONSEG_REF ↔ h = 0 ∧ a1 = 0 ∧ a2 = 0) ∧
  (v = INHERIT_PARENT2 ↔ 0 ≤ h ∧ 0 ≤ a1 ∧ a1 ≠ a2 ∧ h = a2) ∧
  (v = INHERIT_PARENT1 ↔ 0 ≤ h ∧ 0 ≤ a2 ∧ a1 ≠ a2 ∧ h = a1) ∧
  v ≠ INHERIT_UNDETERMINED.
Proof.
  unfold spec_paint_state, is_het, is_hom_ref, is_hom_alt,
    INHERIT_MISSING, INHERIT_PARENT_MISSING, INHERIT_NONPARENTAL,
    INHERIT_NONSEG_ALT, INHERIT_NONSEG_REF, INHERIT_PARENT2, INHERIT_PARENT1,
    INHERIT_UNDETERMINED.
  simpl. allele_cases; lia.
Qed.

Lemma spec_paint_state_swap a1 a2 h :
  spec_paint_state a2 a1 h = exchange_parent_codes (spec_paint_state a1 a2 h).
Proof.
  unfold spec_paint_state, is_het, is_hom_ref, is_hom_alt.
  cbn [forallb existsb head tail default from_option id].
  allele_cases; reflexivity.
Qed.

Lemma paint_transmission_cells parents progeny :
  haplotype_arrays parents progeny = true →
  ∃ painting, paint_transmission parents progeny = Ok painting
    ∧ ∀ i j v, cell painting i j = Some v →
        ∃ a1 a2 h, haplotypes parents !! i = Some [a1; a2]
                 ∧ cell (haplotypes progeny) i j = Some h
                 ∧ v = spec_paint_state a1 a2 h.
Proof.
  intros Ha.
  assert (∃ painting, paint_transmission parents progeny = Ok painting)
    as [painting Hrun].
  { unfold paint_transmission. unfold haplotype_arrays in Ha.
    rewrite !andb_true_iff, !bool_decide_eq_true in Ha.
    destruct Ha as ((_ & ->) & _). simpl. by eexists. }
  exists painting. split; [done|]. intros i j v Hv.
  destruct (paint_transmission_cell_inv _ _ _ _ _ _ Hrun Hv) as [h Hc].
  destruct (haplotype_arrays_row _ _ _ _ _ Ha Hc) as (Hn & a1 & a2 & Hp).
  destruct (paint_transmission_cell _ _ _ _ _ _ _ Hn Hp Hc) as (p' & Hrun' & Hv').
  rewrite Hrun in Hrun'. injection Hrun' as <-.
  rewrite Hv in Hv'. injection Hv' as ->. by exists a1, a2, h.
Qed.

(** X9.  On the documented inputs [paint_transmission] never leaves a cell
    at 0 (undetermined): every cell of the array [np.zeros] created is
    overwritten by one of the seven assignments. *)
Theorem paint_transmission_never_undetermined parents progeny :
  haplotype_arrays parents progeny = true →
  ∃ painting, paint_transmission parents progeny = Ok painting
    ∧ ∀ i j v, cell painting i j = Some v → v ≠ INHERIT_UNDETERMINED.
Proof.
  intros Ha.
  destruct (paint_transmission_cells _ _ Ha) as (painting & Hrun & Hcells).
  exists painting. split; [done|]. intros i j v Hv.
  destruct (Hcells _ _ _ Hv) as (a1 & a2 & h & _ & _ & ->).
  apply spec_paint_state_decode.
Qed.

Lemma paint_transmission_never_undetermined_witness :
  ∃ painting,
    paint_transmission (haplotype_array (take 2 <$> doctest_haplotypes))
                       (haplotype_array (drop 2 <$> doctest_haplotypes))
    = Ok painting
    ∧ ∀ i j v, cell painting i j = Some v → v ≠ INHERIT_UNDETERMINED.
Proof.
  apply (paint_transmission_never_undetermined
           (haplotype_array (take 2 <$> doctest_haplotypes))
           (haplotype_array (drop 2 <$> doctest_haplotypes))).
  reflexivity.
Defined.

(** X10.  What each code of the painting says about its cell, [a1] and
    [a2] being the parental haplotypes at the variant and [h] the progeny
    allele: 7, [h] is missing; 6, [h] is not missing and a parental
    haplotype is; 5, nothing is missing and [h] is neither [a1] nor [a2];
    4, the three are one non-reference allele; 3, the three are the
    reference allele; 2, the parental haplotypes differ and [h] is [a2];
    1, they differ and [h] is [a1]. *)
Theorem paint_transmission_decode parents progeny i j a1 a2 h :
  haplotype_arrays parents progeny = true →
  haplotypes parents !! i = Some [a1; a2] →
  cell (haplotypes progeny) i j = Some h →
  ∃ painting v, paint_transmission parents progeny = Ok painting
    ∧ cell painting i j = Some v
    ∧ (v = INHERIT_MISSING ↔ h < 0)
    ∧ (v = INHERIT_PARENT_MISSING ↔ 0 ≤ h ∧ (a1 < 0 ∨ a2 < 0))
    ∧ (v = INHERIT_NONPARENTAL ↔ 0 ≤ h ∧ 0 ≤ a1 ∧ 0 ≤ a2 ∧ h ≠ a1 ∧ h ≠ a2)
    ∧ (v = INHERIT_NONSEG_ALT ↔ 0 < h ∧ a1 = h ∧ a2 = h)
    ∧ (v = INHERIT_NONSEG_REF ↔ h = 0 ∧ a1 = 0 ∧ a2 = 0)
    ∧ (v = INHERIT_PARENT2 ↔ 0 ≤ h ∧ 0 ≤ a1 ∧ a1 ≠ a2 ∧ h = a2)
    ∧ (v = INHERIT_PARENT1 ↔ 0 ≤ h ∧ 0 ≤ a2 ∧ a1 ≠ a2 ∧ h = a1).
Proof.
  intros Ha Hp Hc.
  destruct (haplotype_arrays_row _ _ _ _ _ Ha Hc) as (Hn & _).
  destruct (paint_transmission_cell _ _ _ _ _ _ _ Hn Hp Hc) as (painting & Hrun & Hv).
  exists painting, (spec_paint_state a1 a2 h). split; [done|]. split; [done|].
  pose proof (spec_paint_state_decode a1 a2 h) as H. cbv zeta in H. tauto.
Qed.

Lemma paint_transmission_decode_witness :
  ∃ painting v,
    paint_transmission (haplotype_array (take 2 <$> doctest_haplotypes))
                       (haplotype_array (drop 2 <$> doctest_haplotypes))
    = Ok painting
    ∧ cell painting 4 2 = Some v
    ∧ (v = INHERIT_MISSING ↔ 2 < 0)
    ∧ (v = INHERIT_PARENT_MISSING ↔ 0 ≤ 2 ∧ (0 < 0 ∨ 2 < 0))
    ∧ (v = INHERIT_NONPARENTAL ↔ 0 ≤ 2 ∧ 0 ≤ 0 ∧ 0 ≤ 2 ∧ 2 ≠ 0 ∧ 2 ≠ 2)
    ∧ (v = INHERIT_NONSEG_ALT ↔ 0 < 2 ∧ 0 = 2 ∧ 2 = 2)
    ∧ (v = INHERIT_NONSEG_REF ↔ 2 = 0 ∧ 0 = 0 ∧ 2 = 0)
    ∧ (v = INHERIT_PARENT2 ↔ 0 ≤ 2 ∧ 0 ≤ 0 ∧ 0 ≠ 2 ∧ 2 = 2)
    ∧ (v = INHERIT_PARENT1 ↔ 0 ≤ 2 ∧ 0 ≤ 2 ∧ 0 ≠ 2 ∧ 2 = 0).
Proof.
  apply (paint_transmission_decode
           (haplotype_array (take 2 <$> doctest_haplotypes))
           (haplotype_array (drop 2 <$> doctest_haplotypes)) 4 2 0 2 2);
    reflexivity.
Defined.

(** X11.  Exchanging the two parental haplotypes exchanges the codes 1 and
    2 of the painting and leaves every other code as it is. *)
Theorem paint_transmission_haplotypes_exchanged parents progeny i j h :
  haplotype_arrays parents progeny = true →
  cell (haplotypes progeny) i j = Some h →
  ∃ painting painting' v,
    paint_transmission parents progeny = Ok painting
    ∧ paint_transmission (swap_haplotypes parents) progeny = Ok painting'
    ∧ cell painting i j = Some v
    ∧ cell painting' i j = Some (exchange_parent_codes v).
Proof.
  intros Ha Hc.
  destruct (haplotype_arrays_row _ _ _ _ _ Ha Hc) as (Hn & a1 & a2 & Hp).
  destruct (paint_transmission_cell _ _ _ _ _ _ _ Hn Hp Hc) as (painting & Hrun & Hv).
  assert (haplotypes (swap_haplotypes parents) !! i = Some [a2; a1]) as Hp'.
  { unfold swap_haplotypes. simpl. by rewrite list_lookup_fmap, Hp. }
  destruct (paint_transmission_cell (swap_haplotypes parents) progeny
              i j a2 a1 h Hn Hp' Hc) as (painting' & Hrun' & Hv').
  exists painting, painting', (spec_paint_state a1 a2 h).
  split; [done|]. split; [done|]. split; [done|].
  by rewrite Hv', spec_paint_state_swap.
Qed.

Lemma paint_transmission_haplotypes_exchanged_witness :
  ∃ painting painting' v,
    paint_transmission (haplotype_array (take 2 <$> doctest_haplotypes))
                       (haplotype_array (drop 2 <$> doctest_haplotypes))
    = Ok painting
    ∧ paint_transmission
        (swap_haplotypes (haplotype_array (take 2 <$> doctest_haplotypes)))
        (haplotype_array (drop 2 <$> doctest_haplotypes))
      = Ok painting'
    ∧ cell painting 1 0 = Some v
    ∧ cell painting' 1 0 = Some (exchange_parent_codes v).
Proof.
  apply (paint_transmission_haplotypes_exchanged
           (haplotype_array (take 2 <$> doctest_haplotypes))
           (haplotype_array (drop 2 <$> doctest_haplotypes)) 1 0 0);
    reflexivity.
Defined.

(** X12.  At every cell exactly one of six things holds: one of the five
    masks of lines 303-319, or a missing parental or progeny allele.  So
    of the seven assignments of lines 324-330 only the last two, for a
    missing parent and for a missing progeny allele, can reach the same
    cell. *)
Theorem paint_masks_partition parents progeny i j a1 a2 h :
  parents !! i = Some [a1; a2] →
  cell progeny i j = Some h →
  let m := transmission_masks parents progeny in
  ∃ b1 b2 b3 b4 b5 pm gm : bool,
    cell (inherit_parent1 m) i j = Some b1
    ∧ cell (inherit_parent2 m) i j = Some b2
    ∧ cell (nonseg_ref m) i j = Some b3
    ∧ cell (nonseg_alt m) i j = Some b4
    ∧ cell (nonparental m) i j = Some b5
    ∧ parent_is_missing m !! i = Some pm
    ∧ cell (progeny_is_missing m) i j = Some gm
    ∧ b2z b1 + b2z b2 + b2z b3 + b2z b4 + b2z b5 + b2z (pm || gm) = 1.
Proof.
  intros Hp Hc m.
  destruct (transmission_masks_cell _ _ _ _ _ _ _ Hp Hc)
    as (Hm7 & Hm6 & Hm1 & Hm2 & Hm3 & Hm4 & Hm5).
  eexists _, _, _, _, _, _, _.
  repeat (split; [eassumption|]).
  unfold is_het, is_hom_ref, is_hom_alt.
  cbn [forallb existsb head tail default from_option id].
  allele_cases; reflexivity.
Qed.

Lemma paint_masks_partition_witness :
  let m := transmission_masks [[1; 1]] [[0; 1; -1]] in
  ∃ b1 b2 b3 b4 b5 pm gm : bool,
    cell (inherit_parent1 m) 0 1 = Some b1
    ∧ cell (inherit_parent2 m) 0 1 = Some b2
    ∧ cell (nonseg_ref m) 0 1 = Some b3
    ∧ cell (nonseg_alt m) 0 1 = Some b4
    ∧ cell (nonparental m) 0 1 = Some b5
    ∧ parent_is_missing m !! 0%nat = Some pm
    ∧ cell (progeny_is_missing m) 0 1 = Some gm
    ∧ b2z b1 + b2z b2 + b2z b3 + b2z b4 + b2z b5 + b2z (pm || gm) = 1.
Proof.
  apply (paint_masks_partition [[1; 1]] [[0; 1; -1]] 0 1 1 1 1); reflexivity.
Defined.

(** ** [phase_progeny_by_transmission]: aliasing and dtype *)

(** X13.  With [copy=False] and an [int8] input the phaser creates no
    genotype array: the reference it returns is the reference it was
    given, the array behind it holds what the Cython routine left in the
    buffer, and the store has the same arrays as before. *)
Theorem phase_in_place_exact phase_buffer g (σ : gmap positive ndarray) a :
  σ !! g = Some a →
  ploidy (arr a) = 2%nat →
  (3 ≤ n_samples (arr a))%nat →
  arr_dtype a = int8 →
  ∃ σ', phase_progeny_by_transmission phase_buffer g false σ
        = (Ok (g, view_bool (phase_buffer (calls (arr a))).2), σ')
      ∧ σ' = <[g := phased_array phase_buffer a]> σ
      ∧ dom σ' = dom σ.
Proof.
  intros Hg Hpl Hns Hdt. unfold phase_progeny_by_transmission.
  rewrite (bind_run _ _ _ _ _ (read_run _ _ _ Hg)).
  rewrite Hpl. rewrite (bool_decide_eq_false_2 (2 ≠ 2)%nat) by auto.
  rewrite (bind_run _ _ σ () σ) by done.
  rewrite (bool_decide_eq_false_2 (n_samples (arr a) < 3)%nat) by lia.
  rewrite (bind_run _ _ σ () σ) by done.
  rewrite (bind_run _ _ σ g σ) by done.
  assert (astype int8 g σ = (Ok g, σ)) as Hast.
  { unfold astype. rewrite (bind_run _ _ _ _ _ (read_run _ _ _ Hg)).
    by rewrite decide_True. }
  rewrite (bind_run _ _ _ _ _ Hast).
  rewrite (bind_run _ _ _ _ _ (phase_int8_run phase_buffer _ _ _ Hg)).
  eexists. split; [reflexivity|]. split; [done|].
  apply dom_insert_lookup_L. by eexists.
Qed.

Lemma phase_in_place_exact_witness :
  let a := mkArray int8 (genotype_array doctest_trios) in
  let σ : gmap positive ndarray := {[ 1%positive := a ]} in
  ∃ σ', phase_progeny_by_transmission phase_buffer_spec 1%positive false σ
        = (Ok (1%positive, view_bool (phase_buffer_spec (calls (arr a))).2), σ')
      ∧ σ' = <[1%positive := phased_array phase_buffer_spec a]> σ
      ∧ dom σ' = dom σ.
Proof.
  intros a σ.
  apply (phase_in_place_exact phase_buffer_spec 1%positive σ a).
  - reflexivity.
  - reflexivity.
  - simpl. lia.
  - reflexivity.
Defined.

Lemma cast_int8_id z : -128 ≤ z ≤ 127 → cast int8 z = z.
Proof.
  intros H. unfold cast. simpl.
  change (2 ^ 8) with 256. change (256 / 2) with 128.
  rewrite Z.mod_small; lia.
Qed.

Lemma as_int8_in_range a :
  in_int8_range (arr a) = true → calls (arr (as_int8 a)) = calls (arr a).
Proof.
  unfold in_int8_range, as_int8. intros H.
  destruct (decide (arr_dtype a = int8)); [done|]. simpl.
  rewrite forallb_forall in H.
  rewrite <- (list_fmap_id (calls (arr a))) at 2.
  apply list_fmap_ext. intros _ row Hrow%list_elem_of_lookup_2.
  apply list_elem_of_In, H in Hrow. rewrite forallb_forall in Hrow.
  rewrite <- (list_fmap_id row) at 2.
  apply list_fmap_ext. intros _ c Hc%list_elem_of_lookup_2.
  apply list_elem_of_In, Hrow in Hc. rewrite forallb_forall in Hc.
  rewrite <- (list_fmap_id c) at 2.
  apply list_fmap_ext. intros _ z Hz%list_elem_of_lookup_2.
  apply list_elem_of_In, Hc in Hz.
  apply andb_prop in Hz as [?%Z.leb_le ?%Z.leb_le]. by apply cast_int8_id.
Qed.

Lemma as_int8_shape a :
  n_variants (arr (as_int8 a)) = n_variants (arr a) ∧
  n_samples (arr (as_int8 a)) = n_samples (arr a) ∧
  ploidy (arr (as_int8 a)) = ploidy (arr a).
Proof. unfold as_int8. by destruct (decide (arr_dtype a = int8)). Qed.

(** X14.  The dtype of the input does not change what is phased, as long
    as every entry fits [int8]: whatever the dtype and whatever [copy],
    the Cython routine is given the entries of the input as they are, and
    the returned [int8] array has the shape of the input and holds what
    the routine left in the buffer. *)
Theorem phase_dtype_independent phase_buffer g copy (σ : gmap positive ndarray) a :
  σ !! g = Some a →
  ploidy (arr a) = 2%nat →
  (3 ≤ n_samples (arr a))%nat →
  in_int8_range (arr a) = true →
  ∃ g' σ',
    phase_progeny_by_transmission phase_buffer g copy σ
    = (Ok (g', view_bool (phase_buffer (calls (arr a))).2), σ')
    ∧ σ' !! g'
      = Some (mkArray int8
                (mkGenotypeArray (n_variants (arr a)) (n_samples (arr a))
                   (ploidy (arr a)) (phase_buffer (calls (arr a))).1)).
Proof.
  intros Hg Hpl Hns Hr.
  destruct (phase_run phase_buffer g copy σ a Hg Hpl Hns)
    as (g' & σ' & Hrun & Hg' & _).
  exists g', σ'. rewrite (as_int8_in_range a Hr) in Hrun. split; [done|].
  rewrite Hg'. unfold phased_array.
  rewrite as_int8_dtype, (as_int8_in_range a Hr).
  by destruct (as_int8_shape a) as (-> & -> & ->).
Qed.

Lemma phase_dtype_independent_witness :
  let a := mkArray int64 (genotype_array doctest_trios) in
  let σ : gmap positive ndarray := {[ 1%positive := a ]} in
  ∃ g' σ',
    phase_progeny_by_transmission phase_buffer_spec 1%positive false σ
    = (Ok (g', view_bool (phase_buffer_spec (calls (arr a))).2), σ')
    ∧ σ' !! g'
      = Some (mkArray int8
                (mkGenotypeArray (n_variants (arr a)) (n_samples (arr a))
                   (ploidy (arr a)) (phase_buffer_spec (calls (arr a))).1)).
Proof.
  intros a σ.
  apply (phase_dtype_independent phase_buffer_spec 1%positive false σ a).
  - reflexivity.
  - reflexivity.
  - simpl. lia.
  - reflexivity.
Defined.

(** An allele that does not fit [int8] is wrapped by the conversion: 200
    in an [int16] array reaches the phaser as -56, a missing allele. *)
Example phase_int16_wraps :
  phase_progeny_by_transmission phase_buffer_spec 1%positive false
    {[ 1%positive := mkArray int16 (genotype_array [[[200; 0]; [0; 0]; [0; 200]]]) ]}
  = (Ok (2%positive, [[false; false; false]]),
     {[ 1%positive := mkArray int16 (genotype_array [[[200; 0]; [0; 0]; [0; 200]]]);
        2%positive := mkArray int8 (genotype_array [[[-56; 0]; [0; 0]; [0; -56]]]) ]}).
Proof. vm_compute. reflexivity. Qed.
